(** * Byte-substitution image cipher: img_encrypt.py and img_decrypt.py

    A shallow embedding of the two scripts.  Python integers are [Z], a
    Python list of integers is [list Z], a [dict] is a [gmap], a [set] is
    a [gset], text is [list ascii].  A numpy array lives in a store of
    arrays and is handled through its location, so that in-place writes
    and fresh allocations are visible.  A raised exception is the [Err]
    branch of [result].

    The calls to [logging] and [time] are left out: nothing in the
    scripts reads a log record or a time stamp back. *)

From Stdlib Require Import ZArith Ascii String DecimalString DecimalZ DecimalPos.
From stdpp Require Import gmap strings list sorting.

Local Open Scope Z_scope.

(** ** Exceptions *)

(** The text of a [ValueError]: one constructor per message the scripts or
    the libraries they call can produce, with the interpolated values. *)
Inductive value_error :=
  | KeyLength (n : nat)            (* "Key length is {n}, expected 256" *)
  | KeyMissing (missing : gset Z)  (* "Key is missing values: {missing}" *)
  | KeyDuplicates (dups : gset Z)  (* "Key has duplicate values: {dups}" *)
  | KeyNotPermutation              (* "Key is not a valid permutation ..." *)
  | ImageNdim (n : nat)            (* "Image has {n} dimensions, expected 3" *)
  | ImageChannels (n : nat)        (* "Image has {n} channels, expected 3" *)
  | ImageRange (lo hi : Z)         (* "Image data values out of range. ..." *)
  | InvalidLiteral (s : list ascii) (* int(): invalid literal for int() *)
  | UnpackCount (n : nat)          (* wrong number of values to unpack *)
  | VectorizeEmpty                 (* np.vectorize on a size 0 input *)
  | ZeroSizeReduction              (* np.min / np.max of an empty array *)
  | CannotReshape (size : nat) (rows cols : Z) (* ndarray.reshape *)
  | RaggedRows                     (* np.loadtxt: rows of different widths *)
  | IntOutOfBounds                 (* np.loadtxt: integer does not fit *)
  | ImsaveChannels (n : nat)       (* plt.imsave: "Third dimension must be 3 or 4" *)
  | ImsaveEmpty.                   (* plt.imsave: an image without pixels *)

Inductive exn :=
  | ValueError (m : value_error)
  | IndexError      (* list index out of range / index out of bounds *)
  | TypeError       (* an operation met None, or a non-scalar index *)
  | OverflowError   (* Python int too large to convert to C long *)
  | FileNotFoundError.

Inductive result (A : Type) :=
  | Ok (a : A)
  | Err (e : exn).
Arguments Ok {A} a.
Arguments Err {A} e.

#[global] Instance result_ret : MRet result := λ A a, Ok a.
#[global] Instance result_bind : MBind result := λ A B f m,
  match m with
  | Ok a => f a
  | Err e => Err e
  end.

Definition is_Ok {A} (r : result A) : Prop := ∃ a, r = Ok a.

#[global] Instance value_error_eq_dec : EqDecision value_error.
Proof. solve_decision. Defined.
#[global] Instance exn_eq_dec : EqDecision exn.
Proof. solve_decision. Defined.

(** ** Python lists *)

(** [list(range(n))] *)
Definition range (n : Z) : list Z := seqZ 0 n.

(** The position a Python sequence of length [n] reads at index [i]:
    a negative index counts from the end. *)
Definition py_index (n : nat) (i : Z) : option nat :=
  if decide (0 ≤ i < Z.of_nat n) then Some (Z.to_nat i)
  else if decide (- Z.of_nat n ≤ i < 0) then Some (Z.to_nat (Z.of_nat n + i))
  else None.

(** [l[i]] *)
Definition list_getitem {A} (l : list A) (i : Z) : result A :=
  match py_index (length l) i with
  | Some k =>
      match l !! k with
      | Some x => Ok x
      | None => Err IndexError
      end
  | None => Err IndexError
  end.

(** [l[i] = x] *)
Definition list_setitem {A} (l : list A) (i : Z) (x : A) : result (list A) :=
  match py_index (length l) i with
  | Some k => Ok (<[k := x]> l)
  | None => Err IndexError
  end.

(** [sorted(l)] on integers. *)
Definition sorted (l : list Z) : list Z := merge_sort Z.le l.

(** [l.count(x)] *)
Definition count (x : Z) (l : list Z) : nat :=
  length (filter (λ y, y = x) l).

(** ** Keys *)

Section generate.
(** The pseudorandom source: [randbelow n] draws from the generator
    state and yields the draw and the next state.  [random.shuffle]
    draws through [self._randbelow]. *)
Context {rng : Type} (randbelow : Z → rng → Z * rng).

(** [random.shuffle(x)]:
<<
    for i in reversed(range(1, len(x))):
        j = randbelow(i + 1)
        x[i], x[j] = x[j], x[i]
>>
    [shuffle_loop] runs the body for the indices it is given. *)
Fixpoint shuffle_loop (idx : list Z) (x : list Z) (g : rng)
  : result (list Z) * rng :=
  match idx with
  | [] => (Ok x, g)
  | i :: idx' =>
      let '(j, g') := randbelow (i + 1) g in
      let step :=
        xj ← list_getitem x j;
        xi ← list_getitem x i;
        x1 ← list_setitem x i xj;
        list_setitem x1 j xi in
      match step with
      | Ok x2 => shuffle_loop idx' x2 g'
      | Err e => (Err e, g')
      end
  end.

Definition shuffle (x : list Z) (g : rng) : result (list Z) * rng :=
  shuffle_loop (reverse (seqZ 1 (Z.of_nat (length x) - 1))) x g.

Definition generate_key (g : rng) : result (list Z) * rng :=
  let key := range 256 in
  shuffle key g.
End generate.

(** [validate_key(key)] *)
Definition validate_key (key : list Z) : result unit :=
  if decide (length key ≠ 256%nat) then
    Err (ValueError (KeyLength (length key)))
  else
    let sorted_key := sorted key in
    let expected_range := range 256 in
    if decide (sorted_key ≠ expected_range) then
      let missing : gset Z :=
        list_to_set expected_range ∖ list_to_set sorted_key in
      let duplicates :=
        filter (λ x, (1 < count x sorted_key)%nat) sorted_key in
      if decide (missing ≠ ∅) then
        Err (ValueError (KeyMissing missing))
      else if decide (duplicates ≠ []) then
        Err (ValueError (KeyDuplicates (list_to_set duplicates)))
      else
        Err (ValueError KeyNotPermutation)
    else Ok ().

(** The key of the spec's example: the identity with the entry at index 7
    overwritten by 3, so that 7 is missing and 3 occurs twice. *)
Definition key_missing7_dup3 : list Z := <[7%nat := 3]> (range 256).


(** ** numpy arrays and the store *)

(** The bounds of numpy's default integer ([dtype=int]), 64 bits wide. *)
Definition int_min : Z := - 2 ^ 63.
Definition int_max : Z := 2 ^ 63 - 1.
Definition fits_int (z : Z) : Prop := int_min ≤ z ≤ int_max.

(** An array is its shape and its elements in row-major order.  An array
    of an integer dtype holds integers; an array of [dtype=object] may
    also hold [None]. *)
Inductive ndarray :=
  | IntArray (shape : list nat) (data : list Z)
  | ObjArray (shape : list nat) (data : list (option Z)).

Definition shape (a : ndarray) : list nat :=
  match a with
  | IntArray sh _ => sh
  | ObjArray sh _ => sh
  end.

(** The elements as Python objects: an integer or [None]. *)
Definition elements (a : ndarray) : list (option Z) :=
  match a with
  | IntArray _ d => Some <$> d
  | ObjArray _ d => d
  end.

Definition size (a : ndarray) : nat := length (elements a).

(** The invariant numpy keeps: as many elements as the shape says, and
    integers that fit the dtype. *)
Definition wf_array (a : ndarray) : Prop :=
  size a = foldr Nat.mul 1%nat (shape a) ∧
  match a with
  | IntArray _ d => Forall fits_int d
  | ObjArray _ _ => True
  end.

#[global] Instance ndarray_eq_dec : EqDecision ndarray.
Proof. solve_decision. Defined.

Definition loc := positive.

(** What the screen and the image files have received. *)
Inductive event :=
  | Displayed (title : string) (img : ndarray)
  | SavedPng (path : string) (img : ndarray).

Record world := World {
  heap : gmap loc ndarray;          (* the arrays alive *)
  files : gmap string (list ascii); (* text files by path *)
  trace : list event;
}.

(** A computation reads and updates the world and returns or raises. *)
Definition M (A : Type) : Type := world → result A * world.

#[global] Instance M_ret : MRet M := λ A a w, (Ok a, w).
#[global] Instance M_bind : MBind M := λ A B f m w,
  match m w with
  | (Ok a, w') => f a w'
  | (Err e, w') => (Err e, w')
  end.

Definition lift {A} (r : result A) : M A := λ w, (r, w).
Definition raise {A} (e : exn) : M A := λ w, (Err e, w).

(** [for x in l: body(x)] *)
Fixpoint for_each {A} (l : list A) (body : A → M unit) : M unit :=
  match l with
  | [] => mret ()
  | x :: l' => body x ;; for_each l' body
  end.

(** [for i in range(n): body(i)] *)
Definition for_range (n : nat) (body : nat → M unit) : M unit :=
  for_each (seq 0 n) body.

(** A new array is stored at a location not in use. *)
Definition alloc (a : ndarray) : M loc := λ w,
  let l := fresh (dom (heap w)) in
  (Ok l, World (<[l := a]> (heap w)) (files w) (trace w)).

(** The array behind a reference; a reference held by the program always
    points to an array. *)
Definition deref (l : loc) : M ndarray := λ w,
  match heap w !! l with
  | Some a => (Ok a, w)
  | None => (Err TypeError, w)
  end.

(** [np.zeros(sh, dtype=int)] *)
Definition np_zeros (sh : list nat) : M loc :=
  alloc (IntArray sh (replicate (foldr Nat.mul 1%nat sh) 0)).

(** [rows, cols = img.shape[:2]] *)
Definition shape2 (img : loc) : M (nat * nat) :=
  a ← deref img;
  match shape a with
  | rows :: cols :: _ => mret (rows, cols)
  | sh => raise (ValueError (UnpackCount (length sh)))
  end.

(** What a subscript raises when it is applied to one element of the
    array: an element of an integer array is a numpy scalar ([IndexError],
    invalid index to scalar variable), an element of an object array is a
    Python int or [None] ([TypeError], not subscriptable). *)
Definition subscript_element (a : ndarray) : exn :=
  match a with
  | IntArray _ _ => IndexError
  | ObjArray _ _ => TypeError
  end.

(** The value of [img[i][j][k]] used as an index into a list.  With fewer
    than three axes one of the three subscripts fails: it is out of
    bounds, or it is applied to an element, or, with no axis at all, to
    the array; with more than three the result is a sub-array, which is
    not an index. *)
Definition getitem3 (img : loc) (i j k : nat) : M Z :=
  a ← deref img;
  match shape a with
  | [] => raise IndexError
  | [n] =>
      if decide (i < n)%nat then raise (subscript_element a)
      else raise IndexError
  | [rows; cols] =>
      if decide (i < rows ∧ j < cols)%nat then raise (subscript_element a)
      else raise IndexError
  | [rows; cols; ch] =>
      if decide (i < rows ∧ j < cols ∧ k < ch)%nat then
        match elements a !! ((i * cols + j) * ch + k)%nat with
        | Some (Some v) => mret v
        | Some None => raise TypeError
        | None => raise IndexError
        end
      else raise IndexError
  | rows :: cols :: ch :: _ =>
      if decide (i < rows ∧ j < cols ∧ k < ch)%nat then raise TypeError
      else raise IndexError
  end.

(** [img1[i][j][k] = x] on an array with three axes of an integer dtype:
    the element is overwritten in place. *)
Definition setitem3 (img1 : loc) (i j k : nat) (x : Z) : M unit := λ w,
  match heap w !! img1 with
  | Some (IntArray [rows; cols; ch] d) =>
      if decide (i < rows ∧ j < cols ∧ k < ch)%nat then
        if decide (fits_int x) then
          let d' := <[((i * cols + j) * ch + k)%nat := x]> d in
          (Ok (), World (<[img1 := IntArray [rows; cols; ch] d']> (heap w))
                        (files w) (trace w))
        else (Err OverflowError, w)
      else (Err IndexError, w)
  | _ => (Err TypeError, w)
  end.

(** ** Substitution *)

(** [encrypt_image(img, key)]; the handler of the [try] logs and raises
    again. *)
Definition encrypt_image (img : loc) (key : list Z) : M loc :=
  '(rows, cols) ← shape2 img;
  img1 ← np_zeros [rows; cols; 3%nat];
  for_range rows (λ i,
    for_range cols (λ j,
      for_range 3 (λ k,
        v ← getitem3 img i j k;
        x ← lift (list_getitem key v);
        setitem3 img1 i j k x)));;
  mret img1.

(** [enumerate(l)] *)
Definition enumerate {A} (l : list A) : list (Z * A) :=
  zip (seqZ 0 (Z.of_nat (length l))) l.

(** [{v: i for i, v in enumerate(key)}]: a later index overwrites an
    earlier one under the same value. *)
Definition invert_key (key : list Z) : gmap Z Z :=
  foldl (λ d '(i, v), <[v := i]> d) ∅ (enumerate key).

(** [d.get(x)] where [x] is an element of an array: [None] is not a key of
    the dictionaries built here. *)
Definition dict_get (d : gmap Z Z) (x : option Z) : option Z :=
  v ← x; d !! v.

(** [np.vectorize(f)(img)] without [otypes].  numpy refuses an input of
    size 0; otherwise it calls [f] on the first element to choose the
    dtype of the output: an integer gives an integer array, and a later
    [None] then fails to convert; [None] gives an object array, which
    holds whatever [f] returns.  The output is a new array of the shape
    of the input. *)
Definition np_vectorize (f : option Z → option Z) (img : loc) : M loc :=
  a ← deref img;
  match elements a with
  | [] => raise (ValueError VectorizeEmpty)
  | x0 :: _ =>
      let outputs := f <$> elements a in
      match f x0 with
      | Some _ =>
          match mapM id outputs with
          | Some d => alloc (IntArray (shape a) d)
          | None => raise TypeError
          end
      | None => alloc (ObjArray (shape a) outputs)
      end
  end.

(** [decrypt_image(img, key)] *)
Definition decrypt_image (img : loc) (key : list Z) : M loc :=
  let inverse_key := invert_key key in
  np_vectorize (dict_get inverse_key) img.

(** [np.min(img)], [np.max(img)] *)
Definition np_min_max (a : ndarray) : result (Z * Z) :=
  match mapM id (elements a) with
  | Some (x :: d) => Ok (foldl Z.min x d, foldl Z.max x d)
  | Some [] => Err (ValueError ZeroSizeReduction)
  | None => Err TypeError
  end.

(** [validate_image(img)]; [img] is always a numpy array here. *)
Definition validate_image (img : loc) : M unit :=
  a ← deref img;
  if decide (length (shape a) ≠ 3%nat) then
    raise (ValueError (ImageNdim (length (shape a))))
  else if decide (last (shape a) ≠ Some 3%nat) then
    raise (ValueError (ImageChannels (default 0%nat (last (shape a)))))
  else
    '(min_val, max_val) ← lift (np_min_max a);
    if decide (min_val < 0 ∨ max_val > 255) then
      raise (ValueError (ImageRange min_val max_val))
    else mret ().

(** ** Text *)

(** [c.isspace()] for an ASCII character. *)
Definition is_space (c : ascii) : bool :=
  let n := nat_of_ascii c in
  ((9 <=? n)%nat && (n <=? 13)%nat) || ((28 <=? n)%nat && (n <=? 32)%nat).

Fixpoint lstrip (s : list ascii) : list ascii :=
  match s with
  | c :: s' => if is_space c then lstrip s' else s
  | [] => []
  end.

Definition rstrip (s : list ascii) : list ascii :=
  reverse (lstrip (reverse s)).

(** [s.strip()] *)
Definition strip (s : list ascii) : list ascii := rstrip (lstrip s).

(** [s.split(sep)] for a separator of one character. *)
Fixpoint split (sep : ascii) (s : list ascii) : list (list ascii) :=
  match s with
  | [] => [[]]
  | c :: s' =>
      if decide (c = sep) then [] :: split sep s'
      else
        match split sep s' with
        | p :: ps => (c :: p) :: ps
        | [] => [[c]]
        end
  end.

(** [sep.join(l)] *)
Fixpoint join (sep : list ascii) (l : list (list ascii)) : list ascii :=
  match l with
  | [] => []
  | [x] => x
  | x :: l' => x ++ sep ++ join sep l'
  end.

(** [str(z)], which is also ['%d' % z]: the decimal digits, with a
    leading minus sign for a negative number.  The interpreter's limit on
    the length of such conversions (4300 digits by default since
    CPython 3.11, [ValueError] beyond) is not modelled here or in [int]. *)
Definition str (z : Z) : list ascii :=
  list_ascii_of_string (NilZero.string_of_int (Z.to_int z)).

Definition digit_of (c : ascii) : option Z :=
  let n := nat_of_ascii c in
  if ((48 <=? n)%nat && (n <=? 57)%nat) then Some (Z.of_nat n - 48) else None.

(** The digits of an integer literal, most significant first; one
    underscore may stand between two digits. *)
Fixpoint int_digits (acc : Z) (after_digit : bool) (s : list ascii)
  : option Z :=
  match s with
  | [] => if after_digit then Some acc else None
  | c :: s' =>
      match digit_of c with
      | Some d => int_digits (10 * acc + d) true s'
      | None =>
          if decide (c = "_"%char) then
            if after_digit then int_digits acc false s' else None
          else None
      end
  end.

(** [int(s)] in base 10 for ASCII text: surrounding whitespace, one
    optional sign, digits. *)
Definition int (s : list ascii) : result Z :=
  let r :=
    match strip s with
    | [] => None
    | c :: t =>
        if decide (c = "-"%char) then Z.opp <$> int_digits 0 false t
        else if decide (c = "+"%char) then int_digits 0 false t
        else int_digits 0 false (c :: t)
    end in
  match r with
  | Some z => Ok z
  | None => Err (ValueError (InvalidLiteral s))
  end.

(** ** Text files *)

(** [open(path, 'w')]: the file is created or emptied.  Failures of the
    operating system are not modelled. *)
Definition open_w (path : string) : M unit := λ w,
  (Ok (), World (heap w) (<[path := []]> (files w)) (trace w)).

(** [file.write(s)] on a file opened for writing. *)
Definition file_write (path : string) (s : list ascii) : M unit := λ w,
  (Ok (), World (heap w)
            (<[path := default [] (files w !! path) ++ s]> (files w))
            (trace w)).

(** [open(path, 'r')] followed by reading the whole file. *)
Definition file_read (path : string) : M (list ascii) := λ w,
  match files w !! path with
  | Some s => (Ok s, w)
  | None => (Err FileNotFoundError, w)
  end.

(** [save_key_to_file(key, file_path)] *)
Definition save_key_to_file (key : list Z) (file_path : string) : M unit :=
  let key_string := join (list_ascii_of_string ", ") (str <$> key) in
  open_w file_path;;
  file_write file_path key_string.

(** [load_key_from_file(filename)] *)
Definition load_key_from_file (filename : string) : M (list Z) :=
  content ← file_read filename;
  let key_string := strip content in
  lift (mapM (λ s, int (strip s)) (split ","%char key_string)).

(** ** The flattened pixel file *)

(** [l] cut into rows of [c] elements, for [c] positive. *)
Fixpoint chunks {A} (fuel : nat) (c : nat) (l : list A) : list (list A) :=
  match fuel with
  | O => []
  | S fuel' =>
      match l with
      | [] => []
      | _ => take c l :: chunks fuel' c (drop c l)
      end
  end.

(** [img.reshape(-1, img.shape[-1])], as the list of its rows. *)
Definition reshape_rows (a : ndarray) : result (list (list (option Z))) :=
  match last (shape a) with
  | None => Err IndexError
  | Some O => Err (ValueError (CannotReshape (size a) (-1) 0))
  | Some c => Ok (chunks (size a) c (elements a))
  end.

(** One line of [np.savetxt(file, X, delimiter=',', fmt='%d')]. *)
Definition savetxt_line (row : list (option Z)) : result (list ascii) :=
  cells ← mapM (λ x, match x with
                     | Some v => Ok (str v)
                     | None => Err TypeError
                     end) row;
  Ok (join [","%char] cells ++ ["010"%char]).

(** [save_image_to_csv(img, filename, rows, cols)] *)
Definition save_image_to_csv (img : loc) (filename : string) (rows cols : Z)
  : M unit :=
  a ← deref img;
  img_flat ← lift (reshape_rows a);
  open_w filename;;
  file_write filename (str rows ++ [","%char] ++ str cols ++ ["010"%char]);;
  for_each img_flat (λ row,
    line ← lift (savetxt_line row);
    file_write filename line).

(** [file.readline()] and what is left of the file after it. *)
Fixpoint readline (s : list ascii) : list ascii * list ascii :=
  match s with
  | [] => ([], [])
  | c :: s' =>
      if decide (c = "010"%char) then ([c], s')
      else let '(l, r) := readline s' in (c :: l, r)
  end.

(** [rows, cols = map(int, line.split(','))].  Every failure here is a
    [ValueError], which the caller turns into [None]. *)
Definition read_dimensions (line : list ascii) : result (Z * Z) :=
  match split ","%char line with
  | [r; c] => rows ← int r; cols ← int c; Ok (rows, cols)
  | l => Err (ValueError (UnpackCount (length l)))
  end.

Fixpoint before_comment (s : list ascii) : list ascii :=
  match s with
  | [] => []
  | c :: s' => if decide (c = "#"%char) then [] else c :: before_comment s'
  end.

(** One field of [np.loadtxt] with [dtype=int]: whitespace, one optional
    sign and digits, as [int] reads them, but with no underscore among the
    digits; the integer must fit the dtype. *)
Definition loadtxt_field (s : list ascii) : result Z :=
  if decide ("_"%char ∈ s) then Err (ValueError (InvalidLiteral s))
  else
    v ← int s;
    if decide (fits_int v) then Ok v
    else Err (ValueError IntOutOfBounds).

(** One line of the data as [np.loadtxt(file, delimiter=',', dtype=int)]
    reads it: text after [#] is a comment, an empty line is skipped. *)
Definition loadtxt_line (line : list ascii) : result (option (list Z)) :=
  let l := before_comment line in
  match l with
  | [] => Ok None
  | _ =>
      row ← mapM loadtxt_field (split ","%char l);
      Ok (Some row)
  end.

(** [np.loadtxt(file, delimiter=',', dtype=int)] on the rest of the file:
    all rows have the same width; axes of length 1 are dropped from the
    shape, and no data at all gives an empty array with one axis. *)
Definition np_loadtxt (s : list ascii) : result ndarray :=
  rows ← mapM loadtxt_line (split "010"%char s);
  match omap id rows with
  | [] => Ok (IntArray [0%nat] [])
  | r :: rs =>
      if decide (Forall (λ r', length r' = length r) rs) then
        Ok (IntArray (filter (λ n, n ≠ 1%nat) [length (r :: rs); length r])
                     (concat (r :: rs)))
      else Err (ValueError RaggedRows)
  end.

(** [a.reshape((rows, cols, 3))]: one of the two lengths may be negative
    and is then computed from the size. *)
Definition np_reshape3 (a : ndarray) (rows cols : Z) : result ndarray :=
  let n := Z.of_nat (size a) in
  let bad := Err (ValueError (CannotReshape (size a) rows cols)) in
  let with_shape (r c : Z) :=
    let sh := [Z.to_nat r; Z.to_nat c; 3%nat] in
    match a with
    | IntArray _ d => IntArray sh d
    | ObjArray _ d => ObjArray sh d
    end in
  if decide (0 ≤ rows ∧ 0 ≤ cols) then
    if decide (rows * cols * 3 = n) then Ok (with_shape rows cols) else bad
  else if decide (rows < 0 ∧ 0 < cols) then
    if decide (n `mod` (cols * 3) = 0) then
      Ok (with_shape (n `div` (cols * 3)) cols)
    else bad
  else if decide (cols < 0 ∧ 0 < rows) then
    if decide (n `mod` (rows * 3) = 0) then
      Ok (with_shape rows (n `div` (rows * 3)))
    else bad
  else bad.

(** [load_image_from_csv(filename)]: [None] stands for the triple
    [(None, None, None)], returned when the file is missing and whenever
    reading it raises.  The flat array read by [np.loadtxt] is dropped when
    the function returns, so only the reshaped array is stored. *)
Definition load_image_from_csv (filename : string)
  : M (option (loc * Z * Z)) := λ w,
  match files w !! filename with
  | None => (Ok None, w)
  | Some content =>
      let '(first, rest) := readline content in
      let line := strip first in
      let loaded :=
        '(rows, cols) ← read_dimensions line;
        img_flat ← np_loadtxt rest;
        img ← np_reshape3 img_flat rows cols;
        Ok (img, rows, cols) in
      match loaded with
      | Ok (img, rows, cols) =>
          (l ← alloc img; mret (Some (l, rows, cols))) w
      | Err _ => (Ok None, w)
      end
  end.

(** ** The decryption run *)

Definition emit (e : event) : M unit := λ w,
  (Ok (), World (heap w) (files w) (trace w ++ [e])).

(** [display_image(img, title)] *)
Definition display_image (img : loc) (title : string) : M unit :=
  a ← deref img;
  emit (Displayed title a).

(** [np.clip(img, 0, 255).astype(np.uint8)] *)
Definition clip_uint8 (a : ndarray) : result ndarray :=
  match mapM id (elements a) with
  | Some d => Ok (IntArray (shape a) ((λ v, Z.max 0 (Z.min v 255)) <$> d))
  | None => Err TypeError
  end.

(** [plt.imsave(png_path, a)] with a path that ends in ".png", for an
    array of 8-bit values.  An array of three axes is a colour picture and
    must have 3 or 4 channels; a picture without pixels cannot be written.
    Both are refused with [ValueError] and nothing is written.  Failures
    of the operating system are not modelled. *)
Definition plt_imsave (png_path : string) (a : ndarray) : M unit :=
  match shape a with
  | [_; _; ch] =>
      if decide (ch = 3 ∨ ch = 4)%nat then mret ()
      else raise (ValueError (ImsaveChannels ch))
  | _ => mret ()
  end;;
  if decide (elements a = []) then raise (ValueError ImsaveEmpty)
  else emit (SavedPng png_path a).

(** [save_image_as_png(img, png_path)]; the handler of the [try] logs and
    raises again. *)
Definition save_image_as_png (img : loc) (png_path : string) : M unit :=
  a ← deref img;
  img_to_save ← lift (clip_uint8 a);
  plt_imsave png_path img_to_save.

(** [os.path.join(dir, name)] for a relative [name]. *)
Definition path_join (dir name : string) : string :=
  if decide (dir = ""%string) then name
  else if decide (last (list_ascii_of_string dir) = Some "/"%char)
       then (dir ++ name)%string
       else (dir ++ "/" ++ name)%string.

(** What the user picks in the three dialogs; the empty string is a
    dialog that was cancelled. *)
Record user := User {
  key_file_choice : string;
  img_dir_choice : string;
  output_dir_choice : string;
}.

(** How the run ends: [main] returns, or [exit(1)]. *)
Inductive outcome := Finished | Exit1.

(** [main()] of img_decrypt.py.  The handler around the decryption catches
    [ValueError] and [KeyError], the outer handler every other exception;
    both end in [exit(1)]. *)
Definition main (u : user) : world → outcome * world := λ w,
  let key_file := key_file_choice u in
  if decide (key_file = ""%string) then (Exit1, w) else
  match (key ← load_key_from_file key_file;
         lift (validate_key key);;
         mret key) w with
  | (Err _, w1) => (Exit1, w1)
  | (Ok key, w1) =>
      let img_dir := img_dir_choice u in
      if decide (img_dir = ""%string) then (Exit1, w1) else
      let csv_path := path_join img_dir "encrypted_image.csv" in
      match load_image_from_csv csv_path w1 with
      | (Err _, w2) | (Ok None, w2) => (Exit1, w2)
      | (Ok (Some (img1_loaded, _, _)), w2) =>
          match (img3 ← decrypt_image img1_loaded key;
                 validate_image img3;;
                 mret img3) w2 with
          | (Err _, w3) => (Exit1, w3)
          | (Ok img3, w3) =>
              match display_image img3 "Decrypted Image" w3 with
              | (Err _, w4) => (Exit1, w4)
              | (Ok _, w4) =>
                  let output_dir := output_dir_choice u in
                  if decide (output_dir = ""%string) then (Exit1, w4) else
                  let decrypted_png_path :=
                    path_join output_dir "decrypted_image.png" in
                  match save_image_as_png img3 decrypted_png_path w4 with
                  | (Err _, w5) => (Exit1, w5)
                  | (Ok _, w5) => (Finished, w5)
                  end
              end
          end
      end
  end.

(** ** Definitions for the statements *)

(** A random source for the example: a linear congruential generator
    reduced below the bound. *)
Definition lcg_randbelow (n : Z) (g : Z) : Z * Z :=
  (g `mod` n, (g * 1103515245 + 12345) `mod` 2 ^ 31).

(** What one pass of the loop body computes from an element: the entry of
    the key at that index, which must fit the output array. *)
Definition subst (key : list Z) (e : option Z) : result Z :=
  match e with
  | Some v =>
      x ← list_getitem key v;
      if decide (fits_int x) then Ok x else Err OverflowError
  | None => Err TypeError
  end.

(** The world while the loop of [encrypt_image] runs: the store [h0] the
    call started from, and the output array at [l1] holding [d]. *)
Definition loop_world (l1 : loc) (rows cols : nat) (h0 : gmap loc ndarray)
    (fs : gmap string (list ascii)) (tr : list event) (d : list Z) : world :=
  World (<[l1 := IntArray [rows; cols; 3%nat] d]> h0) fs tr.

(** The loop seen from the output array: the positions [ps] are
    overwritten in turn until an element of the input [a] fails. *)
Fixpoint fill (key : list Z) (a : ndarray) (ps : list nat) (d : list Z)
  : result unit * list Z :=
  match ps with
  | [] => (Ok (), d)
  | p :: ps' =>
      match elements a !! p with
      | Some e =>
          match subst key e with
          | Ok x => fill key a ps' (<[p := x]> d)
          | Err er => (Err er, d)
          end
      | None => (Err IndexError, d)
      end
  end.

Definition in_world (l1 : loc) (rows cols : nat) (h0 : gmap loc ndarray)
    (fs : gmap string (list ascii)) (tr : list event)
    (r : result unit * list Z) : result unit * world :=
  (r.1, loop_world l1 rows cols h0 fs tr r.2).

(** The dictionary comprehension from index [s] on, over a dictionary [m]
    built so far. *)
Definition invert_from (s : Z) (m : gmap Z Z) (l : list Z) : gmap Z Z :=
  foldl (λ d '(i, v), <[v := i]> d) m (zip (seqZ s (Z.of_nat (length l))) l).

(** A computation that returns a newly allocated array [a'] and changes
    nothing else: every array that was in the store is as it was. *)
Definition returns_new_array (m : M loc) (w : world) (a' : ndarray) : Prop :=
  ∃ out w',
    m w = (Ok out, w') ∧
    heap w !! out = None ∧
    heap w' !! out = Some a' ∧
    (∀ l, l ≠ out → heap w' !! l = heap w !! l) ∧
    files w' = files w ∧ trace w' = trace w.

#[global] Instance fits_int_dec z : Decision (fits_int z).
Proof. unfold fits_int. apply _. Defined.

(** A world that holds one array, at location 1, and nothing else. *)
Definition store_of (a : ndarray) : world :=
  World {[1%positive := a]} ∅ [].

Definition chars (d : Decimal.uint) : list ascii :=
  list_ascii_of_string (NilEmpty.string_of_uint d).

(** The characters [str] writes: digits and the minus sign. *)
Definition plain (c : ascii) : Prop :=
  is_Some (digit_of c) ∨ c = "-"%char.

(** The line [np.savetxt] writes for a row of integers. *)
Definition csv_line (r : list Z) : list ascii :=
  join [","%char] (str <$> r) ++ ["010"%char].

(** The text of the file for a buffer of three channels. *)
Definition csv_text (rows cols : Z) (d : list Z) : list ascii :=
  (str rows ++ [","%char] ++ str cols ++ ["010"%char])
  ++ concat (csv_line <$> chunks (length d) 3 d).

(** An array that passed [validate_image]: three axes, three channels,
    every element an integer in [0, 255]. *)
Definition valid_output (a : ndarray) : Prop :=
  length (shape a) = 3%nat ∧ last (shape a) = Some 3%nat ∧
  Forall (λ x, ∃ v, x = Some v ∧ 0 ≤ v ≤ 255) (elements a).

Definition event_image (e : event) : ndarray :=
  match e with
  | Displayed _ a => a
  | SavedPng _ a => a
  end.

(** The first stage of [main]: the key is loaded and validated. *)
Definition key_stage (u : user) : M (list Z) :=
  key ← load_key_from_file (key_file_choice u);
  lift (validate_key key);;
  mret key.

(** A world for a decryption run: a key file and an encrypted image in
    the directory "enc". *)
Definition decrypt_world (key : list Z) (csv : list ascii) : world :=
  World ∅
    {[ "key.txt"%string := join (list_ascii_of_string ", ") (str <$> key);
       "enc/encrypted_image.csv"%string := csv ]}
    [].

Definition picks : user := User "key.txt" "enc" "out".

(** The first three channels of an array of shape (rows, cols, ch), as
    the array of shape (rows, cols, 3) that [img[i][j][k]] reads for
    [k] below 3. *)
Definition rgb_view (rows cols ch : nat) (a : ndarray) : ndarray :=
  ObjArray [rows; cols; 3%nat]
    ((λ p, default None (elements a !! (p `div` 3 * ch + p `mod` 3)%nat))
       <$> seq 0 (rows * cols * 3)).

(** * Properties *)

(** ** Lists, sorting and permutations *)

Lemma StronglySorted_seqZ m n : StronglySorted Z.le (seqZ m n).
Proof.
  destruct (decide (n ≤ 0)) as [Hn|Hn]; [rewrite seqZ_nil by lia; constructor|].
  rewrite <-(Z2Nat.id n) by lia.
  generalize (Z.to_nat n) as k. clear. intros k; revert m.
  induction k as [|k IH]; intros m.
  - rewrite seqZ_nil by lia. constructor.
  - rewrite seqZ_cons by lia.
    replace (Z.pred (Z.of_nat (S k))) with (Z.of_nat k) by lia.
    constructor; [apply IH|].
    apply Forall_forall. intros x [Hx _]%elem_of_seqZ. lia.
Qed.

Lemma sorted_perm_range key n : key ≡ₚ range n → sorted key = range n.
Proof.
  intros Hp. unfold sorted.
  apply (StronglySorted_unique Z.le).
  - apply StronglySorted_merge_sort; apply _.
  - apply StronglySorted_seqZ.
  - by rewrite merge_sort_Permutation.
Qed.

Lemma sorted_range_perm key n : sorted key = range n → key ≡ₚ range n.
Proof. intros <-. unfold sorted. by rewrite merge_sort_Permutation. Qed.

(** A list as long as [range n] that holds every value of it is a
    permutation of it. *)
Lemma covers_range_perm (key : list Z) n :
  length key = length (range n) →
  (∀ v, v ∈ range n → v ∈ key) →
  key ≡ₚ range n.
Proof.
  intros Hlen Hall. symmetry.
  apply submseteq_length_Permutation; [|lia].
  apply NoDup_submseteq; [apply NoDup_seqZ|done].
Qed.

Lemma validate_key_ok_iff key : validate_key key = Ok () ↔ key ≡ₚ range 256.
Proof.
  unfold validate_key. split.
  - repeat case_decide; try done. intros _.
    apply sorted_range_perm. by destruct (decide (sorted key = range 256)).
  - intros Hp. rewrite decide_False.
    + rewrite decide_False; [done|]. intros Hn. by apply Hn, sorted_perm_range.
    + intros Hn. apply Hn. rewrite Hp. unfold range. by rewrite length_seqZ.
Qed.

Lemma list_to_set_sorted (key : list Z) :
  list_to_set (C := gset Z) (sorted key) = list_to_set key.
Proof.
  apply set_eq. intros v. rewrite !elem_of_list_to_set.
  unfold sorted. by rewrite merge_sort_Permutation.
Qed.

Lemma missing_nonempty (key : list Z) :
  length key = 256%nat → ¬ key ≡ₚ range 256 →
  list_to_set (C := gset Z) (range 256) ∖ list_to_set key ≠ ∅.
Proof.
  intros Hlen Hnp Hempty. apply Hnp, covers_range_perm.
  - rewrite Hlen. unfold range. by rewrite length_seqZ.
  - intros v Hv. destruct (decide (v ∈ key)) as [|Hn]; [done|].
    assert (v ∈ (list_to_set (range 256) ∖ list_to_set key : gset Z)) as Hin
      by (apply elem_of_difference; rewrite !elem_of_list_to_set; done).
    rewrite Hempty in Hin. by apply not_elem_of_empty in Hin.
Qed.

(** ** Key validation *)

(** C3, as the code has it.  [validate_key] raises the length error
    exactly when the length is not 256.  A sequence of 256 integers that is
    not a permutation of 0..255 is rejected with the error that names the
    set of its missing values, which is never empty; the identity
    permutation is accepted. *)
Theorem validate_key_reports (key : list Z) :
  ((∃ n, validate_key key = Err (ValueError (KeyLength n)))
     ↔ length key ≠ 256%nat) ∧
  (length key = 256%nat → ¬ key ≡ₚ range 256 →
     let missing : gset Z := list_to_set (range 256) ∖ list_to_set key in
     missing ≠ ∅ ∧ validate_key key = Err (ValueError (KeyMissing missing))) ∧
  validate_key (range 256) = Ok ().
Proof.
  split; [|split].
  - unfold validate_key. split.
    + intros [n Hn]. repeat case_decide; naive_solver.
    + intros Hlen. exists (length key). by rewrite decide_True.
  - intros Hlen Hnp missing.
    pose proof (missing_nonempty key Hlen Hnp) as Hne.
    split; [done|]. unfold validate_key.
    rewrite decide_False by (intros Hn; by apply Hn).
    rewrite decide_True by (intros Hs; by apply Hnp, sorted_range_perm).
    rewrite list_to_set_sorted. by rewrite decide_True.
  - by apply validate_key_ok_iff.
Qed.

Lemma key_missing7_dup3_counts :
  length key_missing7_dup3 = 256%nat ∧
  count 7 key_missing7_dup3 = 0%nat ∧ count 3 key_missing7_dup3 = 2%nat.
Proof. by vm_compute. Qed.

(** The spec's example on the code: 256 integers, 7 missing, 3 twice. *)
Lemma validate_key_reports_witness :
  (list_to_set (range 256) ∖ list_to_set key_missing7_dup3 : gset Z) ≠ ∅ ∧
  validate_key key_missing7_dup3 =
    Err (ValueError (KeyMissing
      (list_to_set (range 256) ∖ list_to_set key_missing7_dup3))).
Proof.
  apply (validate_key_reports key_missing7_dup3).
  - by vm_compute.
  - intros Hp. apply Permutation_length in Hp as Hl.
    assert (7 ∈ key_missing7_dup3) as Hin by (rewrite Hp; apply elem_of_seqZ; lia).
    revert Hin. apply (bool_decide_unpack (7 ∉ key_missing7_dup3)).
    by vm_compute.
Defined.

(** C3, as the spec words it, fails on the code: for the 256 integers with
    7 missing and 3 twice the error names the missing value only; the
    duplicated 3 is not reported. *)
Lemma validate_key_missing7_dup3 :
  validate_key key_missing7_dup3 = Err (ValueError (KeyMissing {[7]})).
Proof. by vm_compute. Qed.

(** ** Key generation *)

Lemma py_index_nonneg n i :
  0 ≤ i < Z.of_nat n → py_index n i = Some (Z.to_nat i).
Proof. intros. unfold py_index. by rewrite decide_True. Qed.

Lemma list_getitem_nonneg {A} (l : list A) i :
  0 ≤ i < Z.of_nat (length l) →
  ∃ x, l !! Z.to_nat i = Some x ∧ list_getitem l i = Ok x.
Proof.
  intros Hi. unfold list_getitem. rewrite py_index_nonneg by done.
  destruct (lookup_lt_is_Some_2 l (Z.to_nat i)) as [x Hx]; [lia|].
  exists x. by rewrite Hx.
Qed.

Lemma insert_cons_perm {A} (l : list A) j b x :
  l !! j = Some b → b :: <[j := x]> l ≡ₚ x :: l.
Proof.
  revert j. induction l as [|y l IH]; intros [|j] Hj; simplify_eq/=.
  - apply Permutation_swap.
  - rewrite Permutation_swap, (IH _ Hj). apply Permutation_swap.
Qed.

(** [x[i], x[j] = x[j], x[i]] rearranges the list. *)
Lemma swap_perm {A} (l : list A) i j a b :
  l !! i = Some a → l !! j = Some b →
  <[j := a]> (<[i := b]> l) ≡ₚ l.
Proof.
  revert i j. induction l as [|y l IH]; intros [|i] [|j] Hi Hj; simplify_eq/=.
  - done.
  - by apply insert_cons_perm.
  - by apply insert_cons_perm.
  - by rewrite (IH _ _ Hi Hj).
Qed.

Section generate_facts.
Context {rng : Type} (randbelow : Z → rng → Z * rng).
Hypothesis randbelow_range : ∀ n g, 0 < n → 0 ≤ (randbelow n g).1 < n.

Lemma shuffle_loop_perm idx x g :
  Forall (λ i, 0 < i < Z.of_nat (length x)) idx →
  ∃ x', (shuffle_loop randbelow idx x g).1 = Ok x' ∧ x' ≡ₚ x.
Proof.
  revert x g. induction idx as [|i idx IH]; intros x g Hidx; simpl.
  - by exists x.
  - apply Forall_cons in Hidx as [Hi Hidx].
    pose proof (randbelow_range (i + 1) g ltac:(lia)) as Hj.
    destruct (randbelow (i + 1) g) as [j g']. simpl in Hj.
    destruct (list_getitem_nonneg x j ltac:(lia)) as (xj & Hxj & ->).
    destruct (list_getitem_nonneg x i ltac:(lia)) as (xi & Hxi & ->).
    simpl. unfold list_setitem.
    rewrite py_index_nonneg by lia. simpl.
    rewrite py_index_nonneg by (rewrite length_insert; lia). simpl.
    destruct (IH (<[Z.to_nat j := xi]> (<[Z.to_nat i := xj]> x)) g')
      as (x' & Hx' & Hp).
    { rewrite !length_insert. done. }
    exists x'. split; [done|]. rewrite Hp. by apply swap_perm.
Qed.

Lemma generate_key_perm g :
  ∃ key, (generate_key randbelow g).1 = Ok key ∧ key ≡ₚ range 256.
Proof.
  apply shuffle_loop_perm. apply Forall_forall.
  intros i Hi%elem_of_reverse%elem_of_seqZ.
  unfold range in *. rewrite length_seqZ in *. lia.
Qed.
End generate_facts.

Lemma count_perm v (l k : list Z) : l ≡ₚ k → count v l = count v k.
Proof. intros Hp. unfold count. by rewrite Hp. Qed.

Lemma count_not_elem v (l : list Z) : v ∉ l → count v l = 0%nat.
Proof.
  unfold count. induction l as [|y l IH]; intros Hv; [done|].
  apply not_elem_of_cons in Hv as [Hy Hv].
  rewrite filter_cons, decide_False by done. by apply IH.
Qed.

Lemma count_range v n : 0 ≤ v < n → count v (range n) = 1%nat.
Proof.
  intros Hv. unfold range.
  pose proof (NoDup_seqZ 0 n) as Hnd.
  assert (v ∈ seqZ 0 n) as Hin by (apply elem_of_seqZ; lia).
  revert Hnd Hin. generalize (seqZ 0 n) as l. clear.
  induction l as [|y l IH]; intros Hnd Hin; [by apply elem_of_nil in Hin|].
  apply NoDup_cons in Hnd as [Hy Hnd]. unfold count in *. rewrite filter_cons.
  apply elem_of_cons in Hin as [->|Hin].
  - rewrite decide_True by done. simpl. f_equal. by apply count_not_elem.
  - rewrite decide_False by (intros ->; done). by apply IH.
Qed.

(** C6.  Whatever the draws of the random source, as long as each lies
    below its bound as [randbelow] promises, [generate_key] returns a
    sequence of length 256 that holds every integer of 0..255 exactly
    once, sorts to [0..255], and passes [validate_key]. *)
Theorem generate_key_valid {rng : Type} (randbelow : Z → rng → Z * rng) :
  (∀ n g, 0 < n → 0 ≤ (randbelow n g).1 < n) →
  ∀ g, ∃ key,
    (generate_key randbelow g).1 = Ok key ∧
    length key = 256%nat ∧
    (∀ v, 0 ≤ v < 256 → count v key = 1%nat) ∧
    sorted key = range 256 ∧
    validate_key key = Ok ().
Proof.
  intros Hrb g.
  destruct (generate_key_perm randbelow Hrb g) as (key & Hkey & Hp).
  exists key. split; [done|]. split; [|split; [|split]].
  - rewrite Hp. unfold range. by rewrite length_seqZ.
  - intros v Hv. rewrite (count_perm v _ _ Hp). by apply count_range.
  - by apply sorted_perm_range.
  - by apply validate_key_ok_iff.
Qed.

Lemma generate_key_valid_witness :
  ∃ key,
    (generate_key lcg_randbelow 2024).1 = Ok key ∧
    length key = 256%nat ∧
    (∀ v, 0 ≤ v < 256 → count v key = 1%nat) ∧
    sorted key = range 256 ∧
    validate_key key = Ok ().
Proof.
  apply (generate_key_valid lcg_randbelow).
  intros n g Hn. simpl. apply Z.mod_pos_bound. lia.
Defined.

(** ** The substitution loop of [encrypt_image] *)

Lemma bind_M_eq {A B} (m : M A) (f : A → M B) w :
  (m ≫= f) w = match m w with
               | (Ok a, w') => f a w'
               | (Err e, w') => (Err e, w')
               end.
Proof. done. Qed.

Lemma for_each_cons {A} (x : A) l (body : A → M unit) w :
  for_each (x :: l) body w =
    match body x w with
    | (Ok _, w') => for_each l body w'
    | (Err e, w') => (Err e, w')
    end.
Proof. done. Qed.

Section encrypt_loop.
Context (img l1 : loc) (key : list Z) (a : ndarray) (rows cols : nat).
Context (h0 : gmap loc ndarray) (fs : gmap string (list ascii)).
Context (tr : list event).
Hypothesis img_array : h0 !! img = Some a.
Hypothesis img_shape : shape a = [rows; cols; 3%nat].
Hypothesis img_size : size a = (rows * cols * 3)%nat.
Hypothesis l1_fresh : l1 ≠ img.

Lemma fill_length ps d : length (fill key a ps d).2 = length d.
Proof.
  revert d. induction ps as [|p ps IH]; intros d; simpl; [done|].
  destruct (elements a !! p) as [e|]; [|done].
  destruct (subst key e); [|done]. by rewrite IH, length_insert.
Qed.

Lemma fill_app ps ps' d :
  fill key a (ps ++ ps') d =
    match fill key a ps d with
    | (Ok _, d1) => fill key a ps' d1
    | (Err e, d1) => (Err e, d1)
    end.
Proof.
  revert d. induction ps as [|p ps IH]; intros d; simpl; [done|].
  destruct (elements a !! p) as [e|]; [|done].
  by destruct (subst key e).
Qed.

(** One pass of the body of the innermost loop. *)
Lemma body_fill i j k d :
  (i < rows)%nat → (j < cols)%nat → (k < 3)%nat →
  length d = (rows * cols * 3)%nat →
  (v ← getitem3 img i j k;
   x ← lift (list_getitem key v);
   setitem3 l1 i j k x) (loop_world l1 rows cols h0 fs tr d)
  = in_world l1 rows cols h0 fs tr (fill key a [((i * cols + j) * 3 + k)%nat] d).
Proof.
  intros Hi Hj Hk Hd.
  assert (((i * cols + j) * 3 + k) < size a)%nat as Hp by (rewrite img_size; nia).
  destruct (lookup_lt_is_Some_2 (elements a) _ Hp) as [e He].
  unfold in_world. simpl. rewrite He.
  rewrite bind_M_eq. unfold getitem3. rewrite bind_M_eq.
  unfold deref at 1. simpl. rewrite lookup_insert_ne by done.
  rewrite img_array, img_shape. rewrite decide_True by done. rewrite He.
  destruct e as [v|]; simpl; [|done].
  rewrite bind_M_eq. unfold lift at 1.
  destruct (list_getitem key v) as [x|er]; simpl; [|done].
  unfold setitem3. simpl. rewrite lookup_insert_eq.
  rewrite decide_True by done.
  destruct (decide (fits_int x)); simpl; [|done].
  unfold loop_world. by rewrite insert_insert_eq.
Qed.

(** A loop whose passes each fill key a a block of [m] positions fills the
    blocks one after the other. *)
Lemma for_each_blocks (body : nat → M unit) (s m : nat) n i0 d :
  (∀ i d', (i0 ≤ i < i0 + n)%nat → length d' = length d →
     body i (loop_world l1 rows cols h0 fs tr d') = in_world l1 rows cols h0 fs tr (fill key a (seq (s + i * m) m) d')) →
  for_each (seq i0 n) body (loop_world l1 rows cols h0 fs tr d)
  = in_world l1 rows cols h0 fs tr (fill key a (seq (s + i0 * m) (n * m)) d).
Proof.
  revert i0 d. induction n as [|n IH]; intros i0 d Hbody; [done|].
  rewrite <-cons_seq, for_each_cons, Hbody by (done || lia).
  replace (S n * m)%nat with (m + n * m)%nat by lia.
  rewrite seq_app, fill_app. unfold in_world at 1.
  pose proof (fill_length (seq (s + i0 * m) m) d) as Hlen.
  destruct (fill key a (seq (s + i0 * m) m) d) as [[[]|e] d1]; simpl in *; [|done].
  rewrite IH.
  - by replace (s + S i0 * m)%nat with (s + i0 * m + m)%nat by lia.
  - intros i d' Hi Hd'. apply Hbody; [lia|congruence].
Qed.

Lemma loops_fill d :
  length d = (rows * cols * 3)%nat →
  for_range rows (λ i,
    for_range cols (λ j,
      for_range 3 (λ k,
        v ← getitem3 img i j k;
        x ← lift (list_getitem key v);
        setitem3 l1 i j k x))) (loop_world l1 rows cols h0 fs tr d)
  = in_world l1 rows cols h0 fs tr (fill key a (seq 0 (rows * cols * 3)) d).
Proof.
  intros Hd. unfold for_range.
  rewrite (for_each_blocks _ 0 (cols * 3)).
  { by replace (rows * (cols * 3))%nat with (rows * cols * 3)%nat by lia. }
  intros i d1 Hi Hd1.
  rewrite (for_each_blocks _ (0 + i * (cols * 3)) 3).
  { by rewrite Nat.add_0_r. }
  intros j d2 Hj Hd2.
  rewrite (for_each_blocks _ (0 + i * (cols * 3) + (0 + j) * 3) 1).
  { by rewrite Nat.add_0_r. }
  intros k d3 Hk Hd3.
  rewrite body_fill by (lia || congruence).
  by replace ((i * cols + j) * 3 + k)%nat
    with (0 + i * (cols * 3) + (0 + j) * 3 + (0 + k) * 1)%nat by lia.
Qed.

(** Filling every position from [s] on is a map over the elements. *)
Lemma fill_from s d :
  length d = size a →
  (s ≤ size a)%nat →
  match mapM (subst key) (drop s (elements a)) with
  | Ok vs => fill key a (seq s (size a - s)) d = (Ok (), take s d ++ vs)
  | Err e => (fill key a (seq s (size a - s)) d).1 = Err e
  end.
Proof.
  clear img_array img_shape img_size l1_fresh.
  intros Hd Hs. remember (size a - s)%nat as n eqn:Hn.
  revert s d Hd Hs Hn. induction n as [|n IH]; intros s d Hd Hs Hn.
  - rewrite drop_ge by (unfold size in *; lia). simpl.
    rewrite take_ge by lia. by rewrite app_nil_r.
  - assert (s < size a)%nat as Hlt by lia.
    destruct (lookup_lt_is_Some_2 (elements a) s Hlt) as [e He].
    rewrite (drop_S _ _ _ He). simpl. rewrite He.
    change (mapM (subst key) (e :: drop (S s) (elements a)))
      with (y ← subst key e;
            k ← mapM (subst key) (drop (S s) (elements a)); mret (y :: k)).
    destruct (subst key e) as [x|er]; simpl; [|done].
    specialize (IH (S s) (<[s := x]> d)).
    rewrite length_insert in IH. specialize (IH Hd ltac:(lia) ltac:(lia)).
    destruct (mapM (subst key) (drop (S s) (elements a))) as [vs|er];
      simpl; [|done].
    rewrite IH. f_equal.
    rewrite (take_S_r _ _ x) by (apply list_lookup_insert_eq; lia).
    rewrite take_insert_ge by lia. by rewrite <-app_assoc.
Qed.
End encrypt_loop.

(** [encrypt_image] on an array of three axes with three channels: the
    result follows the map of [subst] over the elements, the output array
    is stored at a fresh location, and nothing else in the world moves. *)
Lemma encrypt_image_run img key w a rows cols :
  heap w !! img = Some a →
  shape a = [rows; cols; 3%nat] →
  size a = (rows * cols * 3)%nat →
  let l1 := fresh (dom (heap w)) in
  ∃ d', length d' = size a ∧
    encrypt_image img key w =
      (mapM (subst key) (elements a) ≫= (λ _, Ok l1),
       World (<[l1 := IntArray [rows; cols; 3%nat] d']> (heap w))
             (files w) (trace w)) ∧
    (∀ vs, mapM (subst key) (elements a) = Ok vs → d' = vs).
Proof.
  intros Himg Hsh Hsz l1.
  assert (l1 ≠ img) as Hne.
  { intros Heq. apply (is_fresh (dom (heap w))). fold l1. rewrite Heq.
    apply elem_of_dom. eauto. }
  pose proof (loops_fill img l1 key a rows cols (heap w) (files w) (trace w)
                Himg Hsh Hsz Hne (replicate (rows * cols * 3) 0)
                ltac:(by rewrite length_replicate)) as Hloop.
  pose proof (fill_from key a 0 (replicate (rows * cols * 3) 0)
                ltac:(by rewrite length_replicate, Hsz) ltac:(lia)) as Hfill.
  rewrite drop_0, Nat.sub_0_r, Hsz in Hfill.
  pose proof (fill_length key a (seq 0 (rows * cols * 3))
                (replicate (rows * cols * 3) 0)) as Hlen.
  rewrite length_replicate in Hlen.
  exists (fill key a (seq 0 (rows * cols * 3))
            (replicate (rows * cols * 3) 0)).2.
  split; [by rewrite Hlen, Hsz|]. split.
  - unfold encrypt_image. rewrite bind_M_eq.
    unfold shape2. rewrite bind_M_eq. unfold deref at 1. rewrite Himg, Hsh.
    simpl. rewrite bind_M_eq. unfold np_zeros, alloc. simpl.
    rewrite bind_M_eq. fold l1.
    replace (rows * (cols * 3))%nat with (rows * cols * 3)%nat by lia.
    unfold loop_world in Hloop. rewrite Hloop. unfold in_world, loop_world.
    destruct (mapM (subst key) (elements a)) as [vs|e]; simpl.
    + by rewrite Hfill.
    + by rewrite Hfill.
  - intros vs Hvs. rewrite Hvs in Hfill. by rewrite Hfill.
Qed.

(** The map of [subst] over integers which all index the key. *)
Lemma mapM_subst_ok key (d : list Z) :
  Forall fits_int key →
  Forall (λ v, - Z.of_nat (length key) ≤ v < Z.of_nat (length key)) d →
  ∃ vs, mapM (subst key) (Some <$> d) = Ok vs ∧
        Forall2 (λ v x, list_getitem key v = Ok x) d vs.
Proof.
  intros Hfit. induction 1 as [|v d Hv _ (vs & Hvs & IH)]; [by exists []|].
  assert (∃ x, list_getitem key v = Ok x ∧ fits_int x) as (x & Hx & Hfx).
  { unfold list_getitem, py_index. repeat case_decide; try lia.
    - destruct (lookup_lt_is_Some_2 key (Z.to_nat v)) as [x Hx]; [lia|].
      rewrite Hx. exists x. split; [done|].
      by eapply (Forall_lookup_1 _ _ _ _ Hfit).
    - destruct (lookup_lt_is_Some_2 key (Z.to_nat (Z.of_nat (length key) + v)))
        as [x Hx]; [lia|].
      rewrite Hx. exists x. split; [done|].
      by eapply (Forall_lookup_1 _ _ _ _ Hfit). }
  exists (x :: vs). split; [|by constructor].
  change (mapM (subst key) (Some <$> v :: d))
    with (y ← subst key (Some v); k ← mapM (subst key) (Some <$> d);
          mret (y :: k)).
  simpl. rewrite Hx. simpl. rewrite decide_True by done. simpl.
  by rewrite Hvs.
Qed.

(** The map of [subst] fails as soon as one integer is no index. *)
Lemma mapM_subst_err key (d : list Z) :
  Exists (λ v, v < - Z.of_nat (length key) ∨ Z.of_nat (length key) ≤ v) d →
  ∃ e, mapM (subst key) (Some <$> d) = Err e ∧
       (e = IndexError ∨ e = OverflowError) ∧
       (Forall fits_int key → e = IndexError).
Proof.
  induction 1 as [v d Hv|v d _ (e & He & IH)].
  - exists IndexError.
    change (mapM (subst key) (Some <$> v :: d))
      with (y ← subst key (Some v); k ← mapM (subst key) (Some <$> d);
            mret (y :: k)).
    simpl. unfold list_getitem, py_index.
    rewrite !decide_False by lia. simpl. auto.
  - change (mapM (subst key) (Some <$> v :: d))
      with (y ← subst key (Some v); k ← mapM (subst key) (Some <$> d);
            mret (y :: k)).
    rewrite He. simpl.
    destruct (list_getitem key v) as [x|e'] eqn:Hx; simpl.
    + destruct (decide (fits_int x)) as [|Hn]; simpl; [by exists e|].
      exists OverflowError. split; [done|]. split; [auto|].
      intros Hfit. exfalso. apply Hn.
      unfold list_getitem in Hx.
      destruct (py_index (length key) v) as [k|]; [|done].
      destruct (key !! k) as [y|] eqn:Hy; [|done].
      simplify_eq. by eapply (Forall_lookup_1 _ _ _ _ Hfit).
    + exists e'. split; [done|].
      assert (e' = IndexError) as ->; [|auto].
      unfold list_getitem in Hx.
      destruct (py_index (length key) v) as [k|]; [|congruence].
      destruct (key !! k); congruence.
Qed.

(** ** The inverse key *)

Lemma invert_from_cons s m x l :
  invert_from s m (x :: l) = invert_from (s + 1) (<[x := s]> m) l.
Proof.
  unfold invert_from. simpl length. rewrite seqZ_cons by lia.
  by replace (Z.pred (Z.of_nat (S (length l)))) with (Z.of_nat (length l))
    by lia.
Qed.

Lemma invert_from_sound s m l v i :
  invert_from s m l !! v = Some i →
  (s ≤ i ∧ l !! Z.to_nat (i - s) = Some v) ∨ m !! v = Some i.
Proof.
  revert s m. induction l as [|x l IH]; intros s m; [by right|].
  rewrite invert_from_cons. intros [[Hi Hl]|Hm]%IH.
  - left. split; [lia|].
    replace (Z.to_nat (i - s)) with (S (Z.to_nat (i - (s + 1)))) by lia. done.
  - apply lookup_insert_Some in Hm as [[-> ->]|[_ Hm]]; [|by right].
    left. split; [lia|]. by rewrite Z.sub_diag.
Qed.

Lemma invert_from_not_elem s m l v :
  v ∉ l → invert_from s m l !! v = m !! v.
Proof.
  revert s m. induction l as [|x l IH]; intros s m Hv; [done|].
  apply not_elem_of_cons in Hv as [Hx Hv].
  by rewrite invert_from_cons, IH, lookup_insert_ne.
Qed.

Lemma invert_from_elem s m l v :
  v ∈ l → is_Some (invert_from s m l !! v).
Proof.
  revert s m. induction l as [|x l IH]; intros s m Hv;
    [by apply elem_of_nil in Hv|].
  rewrite invert_from_cons.
  destruct (decide (v ∈ l)) as [Hl|Hl]; [by apply IH|].
  apply elem_of_cons in Hv as [->|Hv]; [|done].
  rewrite invert_from_not_elem, lookup_insert_eq by done. eauto.
Qed.

Lemma invert_key_sound key v i :
  invert_key key !! v = Some i → 0 ≤ i ∧ key !! Z.to_nat i = Some v.
Proof.
  intros [[Hi Hl]|Hm]%(invert_from_sound 0 ∅ key); [|done].
  by rewrite Z.sub_0_r in Hl.
Qed.

Lemma invert_key_None key v : v ∉ key → invert_key key !! v = None.
Proof.
  intros Hv. change (invert_from 0 ∅ key !! v = None).
  by rewrite invert_from_not_elem.
Qed.

(** With distinct entries the dictionary sends every entry back to its
    index. *)
Lemma invert_key_lookup key (k : nat) v :
  NoDup key → key !! k = Some v → invert_key key !! v = Some (Z.of_nat k).
Proof.
  intros Hnd Hk.
  destruct (invert_from_elem 0 ∅ key v) as [i Hi];
    [by eapply list_elem_of_lookup_2|].
  change (invert_key key !! v = Some i) in Hi. rewrite Hi.
  apply invert_key_sound in Hi as [Hi0 Hi].
  f_equal. pose proof (NoDup_lookup _ _ _ _ Hnd Hi Hk). lia.
Qed.

Lemma perm_range_NoDup key n : key ≡ₚ range n → NoDup key.
Proof. intros ->. apply NoDup_seqZ. Qed.

Lemma perm_range_elem key n v : key ≡ₚ range n → v ∈ key ↔ 0 ≤ v < n.
Proof. intros ->. unfold range. rewrite elem_of_seqZ. lia. Qed.

Lemma perm_range_length key n : 0 ≤ n → key ≡ₚ range n → length key = Z.to_nat n.
Proof. intros Hn ->. unfold range. by rewrite length_seqZ. Qed.

(** ** [np.vectorize] and [decrypt_image] *)

Lemma mapM_id_fmap {A B} (g : A → option B) (l : list A) (k : list B) :
  Forall2 (λ x y, g x = Some y) l k → mapM id (g <$> l) = Some k.
Proof. intros H. apply mapM_Some. by apply Forall2_fmap_l. Qed.

Lemma np_vectorize_eq f img w a x0 xs :
  heap w !! img = Some a →
  elements a = x0 :: xs →
  np_vectorize f img w =
    match f x0 with
    | Some _ =>
        match mapM id (f <$> elements a) with
        | Some d => alloc (IntArray (shape a) d) w
        | None => (Err TypeError, w)
        end
    | None => alloc (ObjArray (shape a) (f <$> elements a)) w
    end.
Proof.
  intros Himg Hel. unfold np_vectorize. rewrite bind_M_eq.
  unfold deref. rewrite Himg.
  destruct (elements a) as [|y ys]; simplify_eq.
  destruct (f x0); [|done]. by destruct (mapM id (f <$> x0 :: xs)).
Qed.

(** On a buffer with a first element, all of whose elements the inverse
    dictionary knows, [decrypt_image] stores the looked-up integers in a
    fresh integer array of the shape of the input. *)
Lemma decrypt_image_run img key w sh d d' :
  heap w !! img = Some (IntArray sh d) →
  d ≠ [] →
  Forall2 (λ v i, invert_key key !! v = Some i) d d' →
  decrypt_image img key w =
    (Ok (fresh (dom (heap w))),
     World (<[fresh (dom (heap w)) := IntArray sh d']> (heap w))
           (files w) (trace w)).
Proof.
  intros Himg Hd Hall. unfold decrypt_image.
  assert (mapM id (dict_get (invert_key key) <$> (Some <$> d)) = Some d')
    as Hm by (rewrite <-list_fmap_compose; by apply mapM_id_fmap).
  destruct Hall as [|v0 i0 d0 d0' H0 Hall]; [done|].
  rewrite (np_vectorize_eq _ _ _ _ (Some v0) (Some <$> d0) Himg) by done.
  change (dict_get (invert_key key) (Some v0)) with (invert_key key !! v0).
  rewrite H0. cbn [elements]. by rewrite Hm.
Qed.

(** ** Facts about valid keys *)

Lemma valid_key_perm key : validate_key key = Ok () → key ≡ₚ range 256.
Proof. apply validate_key_ok_iff. Qed.

Lemma fits_int_byte v : 0 ≤ v ≤ 255 → fits_int v.
Proof. unfold fits_int, int_min, int_max. lia. Qed.

Lemma perm_range_fits key : key ≡ₚ range 256 → Forall fits_int key.
Proof.
  intros Hp. apply Forall_forall. intros v Hv.
  apply (perm_range_elem _ _ v Hp) in Hv. apply fits_int_byte. lia.
Qed.

Lemma list_getitem_index {A} (key : list A) v x :
  0 ≤ v → list_getitem key v = Ok x → key !! Z.to_nat v = Some x.
Proof.
  intros Hv. unfold list_getitem, py_index.
  repeat case_decide; try lia; try done.
  destruct (key !! Z.to_nat v); by intros [= ->].
Qed.

Lemma list_getitem_negative {A} (key : list A) v x :
  v < 0 → list_getitem key v = Ok x →
  key !! Z.to_nat (Z.of_nat (length key) + v) = Some x.
Proof.
  intros Hv. unfold list_getitem, py_index.
  repeat case_decide; try lia; try done.
  destruct (key !! _); by intros [= ->].
Qed.

Lemma alloc_returns_new_array (m : M loc) w a' :
  m w = (Ok (fresh (dom (heap w))),
         World (<[fresh (dom (heap w)) := a']> (heap w)) (files w) (trace w)) →
  returns_new_array m w a'.
Proof.
  intros Hm. eexists _, _. split; [done|]. simpl.
  split; [apply not_elem_of_dom, is_fresh|].
  split; [apply lookup_insert_eq|].
  split; [|done]. intros l Hl. by rewrite lookup_insert_ne.
Qed.

(** [encrypt_image] on integers that all index the key. *)
Lemma encrypt_image_indexes w img rows cols d key :
  Forall fits_int key →
  heap w !! img = Some (IntArray [rows; cols; 3%nat] d) →
  length d = (rows * cols * 3)%nat →
  Forall (λ v, - Z.of_nat (length key) ≤ v < Z.of_nat (length key)) d →
  ∃ d', Forall2 (λ v x, list_getitem key v = Ok x) d d' ∧
    encrypt_image img key w =
      (Ok (fresh (dom (heap w))),
       World (<[fresh (dom (heap w)) := IntArray [rows; cols; 3%nat] d']>
                (heap w)) (files w) (trace w)).
Proof.
  intros Hfit Himg Hlen Hd.
  destruct (mapM_subst_ok key d Hfit Hd) as (vs & Hvs & Hall).
  destruct (encrypt_image_run img key w _ rows cols Himg eq_refl)
    as (d' & _ & Hrun & Hd').
  { unfold size. simpl. by rewrite length_fmap. }
  simpl in Hrun, Hd'. rewrite Hvs in Hrun. rewrite (Hd' vs Hvs) in Hrun.
  by exists vs.
Qed.

(** ** Encryption *)

(** C10, as the code has it.  For a key of 256 entries that fit the output
    array and a buffer of shape (rows, cols, 3) whose elements all lie in
    [-256, 255], [encrypt_image] raises nothing and returns a new buffer:
    an element below zero is replaced by the entry of the key at 256 plus
    the element, as Python list indexing wraps around. *)
Theorem encrypt_image_negative_wraps w img rows cols d key :
  length key = 256%nat →
  Forall fits_int key →
  heap w !! img = Some (IntArray [rows; cols; 3%nat] d) →
  length d = (rows * cols * 3)%nat →
  Forall (λ v, -256 ≤ v ≤ 255) d →
  ∃ d',
    returns_new_array (encrypt_image img key) w
      (IntArray [rows; cols; 3%nat] d') ∧
    Forall2 (λ v x,
      key !! Z.to_nat (if decide (v < 0) then 256 + v else v) = Some x) d d'.
Proof.
  intros Hlen Hfit Himg Hd Hrange.
  destruct (encrypt_image_indexes w img rows cols d key Hfit Himg Hd)
    as (d' & Hall & Hrun).
  { rewrite Hlen. eapply Forall_impl; [done|]. simpl. lia. }
  exists d'. split; [by apply alloc_returns_new_array|].
  eapply Forall2_impl; [done|]. intros v x Hx. simpl in Hx.
  case_decide.
  - apply list_getitem_negative in Hx; [|done]. by rewrite Hlen in Hx.
  - apply list_getitem_index in Hx; [done|lia].
Qed.

Lemma encrypt_image_negative_wraps_witness :
  ∃ d',
    returns_new_array (encrypt_image 1%positive (reverse (range 256)))
      (store_of (IntArray [1; 1; 3]%nat [-1; 20; -256]))
      (IntArray [1; 1; 3]%nat d') ∧
    Forall2 (λ v x,
      reverse (range 256) !! Z.to_nat (if decide (v < 0) then 256 + v else v)
      = Some x) [-1; 20; -256] d'.
Proof.
  apply (encrypt_image_negative_wraps
           (store_of (IntArray [1; 1; 3]%nat [-1; 20; -256])) 1%positive 1%nat 1%nat).
  - reflexivity.
  - apply (bool_decide_unpack _). by vm_compute.
  - reflexivity.
  - reflexivity.
  - repeat constructor; lia.
Defined.

(** C10, as the spec words it, fails on the code.  A buffer with a
    negative element is rejected when another of its elements is no index
    of the key, and a key of 256 entries makes the store into the output
    array fail when the entry read does not fit it. *)
Lemma encrypt_image_negative_raises :
  (encrypt_image 1%positive (range 256)
     (store_of (IntArray [1; 1; 3]%nat [-1; 256; 0]))).1 = Err IndexError ∧
  (encrypt_image 1%positive (<[255%nat := 2 ^ 63]> (range 256))
     (store_of (IntArray [1; 1; 3]%nat [-1; 0; 0]))).1 = Err OverflowError.
Proof. split; by vm_compute. Qed.

(** ** Elements outside the domain *)

Lemma mapM_id_None {A} (l : list (option A)) : None ∈ l → mapM id l = None.
Proof.
  intros Hin. apply eq_None_not_Some. intros Hs%mapM_is_Some.
  rewrite Forall_forall in Hs. by destruct (Hs None Hin).
Qed.

(** C2, as the code has it.  For a key of 256 entries and a buffer of shape
    (rows, cols, 3) with an element below -256 or above 255,
    [encrypt_image] raises and returns no buffer: the error is the
    [IndexError] of the list, which names no value, or an [OverflowError]
    when an entry read before does not fit the output array.
    [decrypt_image] has no error of its own for an element without an
    index: for a valid key and a buffer with an element outside [0, 255] it
    raises [TypeError] when the first element of the buffer lies in
    [0, 255], and otherwise returns a new object buffer that holds [None]
    in place of every such element. *)
Theorem substitution_out_of_domain w img rows cols d key :
  length key = 256%nat →
  heap w !! img = Some (IntArray [rows; cols; 3%nat] d) →
  length d = (rows * cols * 3)%nat →
  (Exists (λ v, v < -256 ∨ 255 < v) d →
     ∃ e w', encrypt_image img key w = (Err e, w') ∧
       (e = IndexError ∨ e = OverflowError) ∧
       (Forall fits_int key → e = IndexError)) ∧
  (validate_key key = Ok () → Exists (λ v, v < 0 ∨ 255 < v) d →
     ∀ v0, head d = Some v0 →
       if decide (0 ≤ v0 ≤ 255) then
         decrypt_image img key w = (Err TypeError, w)
       else
         returns_new_array (decrypt_image img key) w
           (ObjArray [rows; cols; 3%nat] ((λ v, invert_key key !! v) <$> d)) ∧
         invert_key key !! v0 = None).
Proof.
  intros Hlen Himg Hd. split.
  - intros Hex.
    destruct (mapM_subst_err key d) as (e & He & Hcase & Hfit).
    { rewrite Hlen. eapply Exists_impl; [done|]. simpl. lia. }
    destruct (encrypt_image_run img key w _ rows cols Himg eq_refl)
      as (d' & _ & Hrun & _).
    { unfold size. simpl. by rewrite length_fmap. }
    simpl in Hrun. rewrite He in Hrun. eauto.
  - intros Hp%valid_key_perm Hex v0 Hv0.
    destruct d as [|v d0]; simplify_eq/=.
    assert (∀ v, ¬ 0 ≤ v ≤ 255 → invert_key key !! v = None) as Hnone.
    { intros v Hv. apply invert_key_None.
      rewrite (perm_range_elem _ _ v Hp). lia. }
    pose proof (np_vectorize_eq (dict_get (invert_key key)) img w _
                  (Some v0) (fmap (M:=list) (@Some Z) d0) Himg eq_refl)
      as Hvec.
    change (dict_get (invert_key key) (Some v0)) with (invert_key key !! v0)
      in Hvec.
    case_decide as Hv.
    + unfold decrypt_image. rewrite Hvec.
      destruct (invert_from_elem 0 ∅ key v0) as [i0 Hi0].
      { apply (perm_range_elem _ _ v0 Hp). lia. }
      change (invert_key key !! v0 = Some i0) in Hi0. rewrite Hi0.
      rewrite mapM_id_None; [done|].
      apply Exists_exists in Hex as (v & Hin & Hv').
      apply list_elem_of_fmap. exists (Some v). split.
      * simpl. symmetry. apply Hnone. lia.
      * cbn [elements]. by apply list_elem_of_fmap_2.
    + split; [|by apply Hnone].
      apply alloc_returns_new_array. unfold decrypt_image.
      rewrite Hvec, (Hnone v0 Hv). unfold alloc. cbn [elements shape].
      rewrite <-list_fmap_compose, fmap_cons. simpl.
      by rewrite (Hnone v0 Hv).
Qed.

Lemma substitution_out_of_domain_witness :
  (∃ e w',
     encrypt_image 1%positive (range 256)
       (store_of (IntArray [1; 1; 3]%nat [256; 0; 0])) = (Err e, w') ∧
     (e = IndexError ∨ e = OverflowError) ∧
     (Forall fits_int (range 256) → e = IndexError)) ∧
  (returns_new_array (decrypt_image 1%positive (range 256))
     (store_of (IntArray [1; 1; 3]%nat [256; 0; 0]))
     (ObjArray [1; 1; 3]%nat
        ((λ v, invert_key (range 256) !! v) <$> [256; 0; 0])) ∧
   invert_key (range 256) !! 256 = None).
Proof.
  destruct (substitution_out_of_domain
              (store_of (IntArray [1; 1; 3]%nat [256; 0; 0]))
              1%positive 1%nat 1%nat [256; 0; 0] (range 256)
              eq_refl eq_refl eq_refl) as [Henc Hdec].
  split.
  - apply Henc. constructor. lia.
  - apply (Hdec ltac:(by vm_compute) ltac:(constructor; lia) 256 eq_refl).
Defined.

(** C2, as the spec words it, fails on the code.  With the identity key,
    [encrypt_image] takes the element -1 for the index of the last entry
    and returns a buffer, and [decrypt_image] returns a buffer that holds
    [None] where the element was 256. *)
Lemma substitution_accepts_out_of_domain :
  let enc := encrypt_image 1%positive (range 256)
               (store_of (IntArray [1; 1; 3]%nat [-1; 0; 0])) in
  let dec := decrypt_image 1%positive (range 256)
               (store_of (IntArray [1; 1; 3]%nat [256; 0; 0])) in
  enc.1 = Ok 2%positive ∧
  heap enc.2 !! 2%positive = Some (IntArray [1; 1; 3]%nat [255; 0; 0]) ∧
  dec.1 = Ok 2%positive ∧
  heap dec.2 !! 2%positive
    = Some (ObjArray [1; 1; 3]%nat [None; Some 0; Some 0]).
Proof. by vm_compute. Qed.

(** ** The inverse of a valid key *)

(** C5.  For a key that passes [validate_key], the dictionary built by
    [decrypt_image] sends the entry at every index of 0..255 back to that
    index; it is defined exactly on 0..255; and read in the order of its
    keys it is a sequence that passes [validate_key] again, in which every
    byte value occurs exactly once. *)
Theorem invert_key_valid key :
  validate_key key = Ok () →
  (∀ i, 0 ≤ i < 256 →
     ∃ v, list_getitem key i = Ok v ∧ invert_key key !! v = Some i) ∧
  (∀ b, is_Some (invert_key key !! b) ↔ 0 ≤ b < 256) ∧
  ∃ inverse : list Z,
    (∀ b, 0 ≤ b < 256 → invert_key key !! b = inverse !! Z.to_nat b) ∧
    validate_key inverse = Ok () ∧
    (∀ v, 0 ≤ v < 256 → count v inverse = 1%nat).
Proof.
  intros Hp%valid_key_perm.
  pose proof (perm_range_NoDup _ _ Hp) as Hnd.
  pose proof (perm_range_length key 256 ltac:(lia) Hp) as Hlen.
  assert (∀ i, 0 ≤ i < 256 →
    ∃ v, list_getitem key i = Ok v ∧ invert_key key !! v = Some i) as Hinv.
  { intros i Hi.
    destruct (list_getitem_nonneg key i ltac:(lia)) as (v & Hv & Hget).
    exists v. split; [done|].
    rewrite (invert_key_lookup key _ v Hnd Hv). f_equal. lia. }
  assert (∀ b, is_Some (invert_key key !! b) ↔ 0 ≤ b < 256) as Hdom.
  { intros b. rewrite <-(perm_range_elem key 256 b Hp). split.
    - intros [i [_ Hi]%invert_key_sound]. by eapply list_elem_of_lookup_2.
    - apply (invert_from_elem 0 ∅ key b). }
  split; [done|]. split; [done|].
  set (inverse := (λ b, default 0 (invert_key key !! b)) <$> range 256).
  assert (inverse ≡ₚ range 256) as Hperm.
  { apply covers_range_perm.
    - unfold inverse. by rewrite length_fmap.
    - intros i [Hi0 Hi]%elem_of_seqZ.
      destruct (Hinv i ltac:(lia)) as (v & Hget & Hv).
      apply list_elem_of_fmap. exists v. split; [by rewrite Hv|].
      apply list_getitem_index in Hget; [|lia].
      rewrite <-Hp. by eapply list_elem_of_lookup_2. }
  exists inverse. split; [|split].
  - intros b Hb. unfold inverse, range.
    rewrite list_lookup_fmap, lookup_seqZ_lt by lia. simpl.
    destruct (proj2 (Hdom b) Hb) as [i Hi].
    rewrite Z.add_0_l, Z2Nat.id by lia. by rewrite Hi.
  - by apply validate_key_ok_iff.
  - intros v Hv. rewrite (count_perm v _ _ Hperm). by apply count_range.
Qed.

Lemma invert_key_valid_witness :
  (∀ i, 0 ≤ i < 256 →
     ∃ v, list_getitem (reverse (range 256)) i = Ok v ∧
          invert_key (reverse (range 256)) !! v = Some i) ∧
  (∀ b, is_Some (invert_key (reverse (range 256)) !! b) ↔ 0 ≤ b < 256) ∧
  ∃ inverse : list Z,
    (∀ b, 0 ≤ b < 256 →
       invert_key (reverse (range 256)) !! b = inverse !! Z.to_nat b) ∧
    validate_key inverse = Ok () ∧
    (∀ v, 0 ≤ v < 256 → count v inverse = 1%nat).
Proof. apply (invert_key_valid (reverse (range 256))). by vm_compute. Defined.

(** ** Purity and the round trip *)

(** [encrypt_image] with a valid key on byte values: the entries read. *)
Lemma encrypt_image_bytes w img rows cols d key :
  key ≡ₚ range 256 →
  heap w !! img = Some (IntArray [rows; cols; 3%nat] d) →
  length d = (rows * cols * 3)%nat →
  Forall (λ v, 0 ≤ v ≤ 255) d →
  ∃ d', Forall2 (λ v x, key !! Z.to_nat v = Some x) d d' ∧
    encrypt_image img key w =
      (Ok (fresh (dom (heap w))),
       World (<[fresh (dom (heap w)) := IntArray [rows; cols; 3%nat] d']>
                (heap w)) (files w) (trace w)).
Proof.
  intros Hp Himg Hlen Hd.
  pose proof (perm_range_length key 256 ltac:(lia) Hp) as Hk.
  destruct (encrypt_image_indexes w img rows cols d key
              (perm_range_fits _ Hp) Himg Hlen) as (d' & Hall & Hrun).
  { rewrite Hk. eapply Forall_impl; [done|]. simpl. lia. }
  exists d'. split; [|done].
  apply Forall2_same_length_lookup. split; [by eapply Forall2_length|].
  intros i v x Hv Hx.
  pose proof (Forall2_lookup_lr _ _ _ _ _ _ Hall Hv Hx) as Hget.
  apply list_getitem_index in Hget; [done|].
  pose proof (Forall_lookup_1 _ _ _ _ Hd Hv). simpl in *. lia.
Qed.

(** [decrypt_image] with a valid key on byte values: the indices found. *)
Lemma decrypt_image_bytes w img sh d key :
  key ≡ₚ range 256 →
  heap w !! img = Some (IntArray sh d) →
  d ≠ [] →
  Forall (λ v, 0 ≤ v ≤ 255) d →
  ∃ d', Forall2 (λ v i, invert_key key !! v = Some i) d d' ∧
    decrypt_image img key w =
      (Ok (fresh (dom (heap w))),
       World (<[fresh (dom (heap w)) := IntArray sh d']> (heap w))
             (files w) (trace w)).
Proof.
  intros Hp Himg Hne Hd.
  assert (∃ d', Forall2 (λ v i, invert_key key !! v = Some i) d d')
    as [d' Hall].
  { clear Himg Hne. induction Hd as [|v d Hv _ [d' IH]]; [by exists []|].
    destruct (invert_from_elem 0 ∅ key v) as [i Hi].
    { apply (perm_range_elem key 256 v Hp). lia. }
    exists (i :: d'). by constructor. }
  exists d'. split; [done|]. by apply (decrypt_image_run img key w sh d d').
Qed.

(** C9, as the code has it.  For a valid key and a buffer of shape
    (rows, cols, 3) with elements in [0, 255], [encrypt_image] returns a
    newly allocated buffer of that shape in which every element [v] is
    replaced by the entry of the key at [v]; [decrypt_image] does the same
    with the index at which the key holds [v], provided the buffer has an
    element at all.  Neither changes the input buffer or any other array,
    file or output. *)
Theorem substitution_pure w img rows cols d key :
  validate_key key = Ok () →
  heap w !! img = Some (IntArray [rows; cols; 3%nat] d) →
  length d = (rows * cols * 3)%nat →
  Forall (λ v, 0 ≤ v ≤ 255) d →
  (∃ d',
     returns_new_array (encrypt_image img key) w
       (IntArray [rows; cols; 3%nat] d') ∧
     Forall2 (λ v x, key !! Z.to_nat v = Some x) d d') ∧
  (d ≠ [] →
   ∃ d',
     returns_new_array (decrypt_image img key) w
       (IntArray [rows; cols; 3%nat] d') ∧
     Forall2 (λ v i, 0 ≤ i ∧ key !! Z.to_nat i = Some v) d d').
Proof.
  intros Hp%valid_key_perm Himg Hlen Hd. split.
  - destruct (encrypt_image_bytes w img rows cols d key Hp Himg Hlen Hd)
      as (d' & Hall & Hrun).
    exists d'. split; [by apply alloc_returns_new_array|done].
  - intros Hne.
    destruct (decrypt_image_bytes w img _ d key Hp Himg Hne Hd)
      as (d' & Hall & Hrun).
    exists d'. split; [by apply alloc_returns_new_array|].
    eapply Forall2_impl; [done|]. intros v i Hi. by apply invert_key_sound.
Qed.

(** The spec's scenario: the reverse permutation on one pixel. *)
Lemma substitution_pure_witness :
  (∃ d',
     returns_new_array (encrypt_image 1%positive (reverse (range 256)))
       (store_of (IntArray [1; 1; 3]%nat [10; 20; 30]))
       (IntArray [1; 1; 3]%nat d') ∧
     Forall2 (λ v x, reverse (range 256) !! Z.to_nat v = Some x)
       [10; 20; 30] d') ∧
  ([10; 20; 30] ≠ [] →
   ∃ d',
     returns_new_array (decrypt_image 1%positive (reverse (range 256)))
       (store_of (IntArray [1; 1; 3]%nat [10; 20; 30]))
       (IntArray [1; 1; 3]%nat d') ∧
     Forall2 (λ v i, 0 ≤ i ∧ reverse (range 256) !! Z.to_nat i = Some v)
       [10; 20; 30] d').
Proof.
  apply (substitution_pure (store_of (IntArray [1; 1; 3]%nat [10; 20; 30]))
           1%positive 1%nat 1%nat).
  - by vm_compute.
  - reflexivity.
  - reflexivity.
  - repeat constructor; lia.
Defined.

(** C9, as the spec words it, fails on the code: on a buffer of shape
    (0, 0, 3) [decrypt_image] raises, as [np.vectorize] refuses an input
    without elements. *)
Lemma decrypt_image_empty_raises :
  decrypt_image 1%positive (range 256) (store_of (IntArray [0; 0; 3]%nat []))
  = (Err (ValueError VectorizeEmpty), store_of (IntArray [0; 0; 3]%nat [])).
Proof. by vm_compute. Qed.

(** C1, as the code has it.  For a valid key and a buffer of shape
    (rows, cols, 3) with at least one pixel and elements in [0, 255],
    encrypting and then decrypting the result returns a buffer equal to
    the original one, which itself is still in place. *)
Theorem decrypt_encrypt_roundtrip w img rows cols d key :
  validate_key key = Ok () →
  heap w !! img = Some (IntArray [rows; cols; 3%nat] d) →
  length d = (rows * cols * 3)%nat →
  (0 < rows)%nat → (0 < cols)%nat →
  Forall (λ v, 0 ≤ v ≤ 255) d →
  ∃ dec w',
    (enc ← encrypt_image img key; decrypt_image enc key) w = (Ok dec, w') ∧
    heap w' !! dec = Some (IntArray [rows; cols; 3%nat] d) ∧
    heap w' !! img = Some (IntArray [rows; cols; 3%nat] d).
Proof.
  intros Hp%valid_key_perm Himg Hlen Hr Hc Hd.
  pose proof (perm_range_NoDup _ _ Hp) as Hnd.
  destruct (encrypt_image_bytes w img rows cols d key Hp Himg Hlen Hd)
    as (d' & Hall & Henc).
  set (enc := fresh (dom (heap w))) in *.
  set (w1 := World (<[enc := IntArray [rows; cols; 3%nat] d']> (heap w))
                   (files w) (trace w)) in *.
  assert (enc ≠ img) as Hne.
  { intros Heq. apply (is_fresh (dom (heap w))). fold enc. rewrite Heq.
    apply elem_of_dom. eauto. }
  assert (decrypt_image enc key w1 =
          (Ok (fresh (dom (heap w1))),
           World (<[fresh (dom (heap w1)) := IntArray [rows; cols; 3%nat] d]>
                    (heap w1)) (files w1) (trace w1))) as Hdec.
  { apply (decrypt_image_run enc key w1 _ d' d).
    - apply lookup_insert_eq.
    - intros ->. apply Forall2_length in Hall. rewrite Hlen in Hall.
      simpl in Hall. nia.
    - apply Forall2_same_length_lookup.
      split; [symmetry; by eapply Forall2_length|].
      intros i x v Hx Hv.
      pose proof (Forall2_lookup_lr _ _ _ _ _ _ Hall Hv Hx) as Hkey.
      pose proof (Forall_lookup_1 _ _ _ _ Hd Hv) as Hrange.
      simpl in Hkey, Hrange.
      rewrite (invert_key_lookup key _ x Hnd Hkey). f_equal. lia. }
  exists (fresh (dom (heap w1))), (World
    (<[fresh (dom (heap w1)) := IntArray [rows; cols; 3%nat] d]> (heap w1))
    (files w1) (trace w1)).
  split; [|split].
  - rewrite bind_M_eq, Henc. exact Hdec.
  - apply lookup_insert_eq.
  - simpl.
    assert (fresh (dom (heap w1)) ≠ img) as Hne'.
    { intros Heq. apply (is_fresh (dom (heap w1))). rewrite Heq.
      apply elem_of_dom. simpl. rewrite lookup_insert_ne by done. eauto. }
    by rewrite !lookup_insert_ne.
Qed.

Lemma decrypt_encrypt_roundtrip_witness :
  ∃ dec w',
    (enc ← encrypt_image 1%positive (reverse (range 256));
     decrypt_image enc (reverse (range 256)))
      (store_of (IntArray [1; 1; 3]%nat [10; 20; 30])) = (Ok dec, w') ∧
    heap w' !! dec = Some (IntArray [1; 1; 3]%nat [10; 20; 30]) ∧
    heap w' !! 1%positive = Some (IntArray [1; 1; 3]%nat [10; 20; 30]).
Proof.
  apply (decrypt_encrypt_roundtrip
           (store_of (IntArray [1; 1; 3]%nat [10; 20; 30]))
           1%positive 1%nat 1%nat).
  - by vm_compute.
  - reflexivity.
  - reflexivity.
  - lia.
  - lia.
  - repeat constructor; lia.
Defined.

(** C1, as the spec words it, fails on the code: a buffer of shape
    (0, 0, 3) is encrypted to an empty buffer, on which [decrypt_image]
    raises instead of returning the original. *)
Lemma roundtrip_empty_buffer_raises :
  ((enc ← encrypt_image 1%positive (range 256);
    decrypt_image enc (range 256))
     (store_of (IntArray [0; 0; 3]%nat []))).1
  = Err (ValueError VectorizeEmpty).
Proof. by vm_compute. Qed.

(** ** Text: printing and reading integers *)

Lemma chars_digits d : Forall (λ c, is_Some (digit_of c)) (chars d).
Proof. induction d; constructor; by eauto. Qed.

Lemma int_digits_acc d acc :
  int_digits (Z.pos acc) true (chars d) = Some (Z.pos (Pos.of_uint_acc d acc)).
Proof.
  revert acc. induction d; intros acc; [done|..];
    cbn -[Z.mul Z.add Pos.mul Pos.add]; rewrite <-IHd; f_equal;
    match goal with
    | |- context [Z.of_nat (nat_of_ascii ?c)] =>
        let v := eval vm_compute in (Z.of_nat (nat_of_ascii c)) in
        change (Z.of_nat (nat_of_ascii c)) with v
    end; lia.
Qed.

Lemma int_digits_uint d :
  int_digits 0 true (chars d) = Some (Z.of_N (Pos.of_uint d)).
Proof.
  induction d; [done|exact IHd|..]; apply (int_digits_acc d).
Qed.

Lemma int_digits_start d :
  d ≠ Decimal.Nil →
  int_digits 0 false (chars d) = Some (Z.of_N (Pos.of_uint d)).
Proof. intros Hd. rewrite <-int_digits_uint. by destruct d. Qed.

Lemma str_pos p : str (Z.pos p) = chars (Pos.to_uint p).
Proof.
  unfold str, chars. simpl. unfold NilZero.string_of_uint.
  pose proof (Unsigned.to_uint_nonnil p). by destruct (Pos.to_uint p).
Qed.

Lemma str_neg p : str (Z.neg p) = "-"%char :: chars (Pos.to_uint p).
Proof.
  unfold str, chars. simpl. unfold NilZero.string_of_uint.
  pose proof (Unsigned.to_uint_nonnil p). by destruct (Pos.to_uint p).
Qed.

Lemma str_plain z : Forall plain (str z).
Proof.
  destruct z as [|p|p].
  - change (str 0) with ["0"%char].
    constructor; [left; by eexists|constructor].
  - rewrite str_pos. eapply Forall_impl; [apply chars_digits|].
    intros c Hc. by left.
  - rewrite str_neg. constructor; [by right|].
    eapply Forall_impl; [apply chars_digits|]. intros c Hc. by left.
Qed.

Lemma str_nonempty z : str z ≠ [].
Proof.
  destruct z as [|p|p]; [done| |by rewrite str_neg].
  rewrite str_pos. unfold chars.
  pose proof (Unsigned.to_uint_nonnil p). by destruct (Pos.to_uint p).
Qed.

Lemma digit_of_Some c : is_Some (digit_of c) →
  (48 ≤ nat_of_ascii c ≤ 57)%nat.
Proof.
  unfold digit_of. intros [d Hd].
  destruct (Nat.leb_spec 48 (nat_of_ascii c));
    destruct (Nat.leb_spec (nat_of_ascii c) 57);
    cbn [andb] in Hd; by (lia || discriminate).
Qed.

Lemma plain_code c : plain c →
  (48 ≤ nat_of_ascii c ≤ 57)%nat ∨ nat_of_ascii c = 45%nat.
Proof. intros [H%digit_of_Some| ->]; [by left|by right]. Qed.

Lemma plain_not_space c : plain c → is_space c = false.
Proof.
  intros H%plain_code. unfold is_space.
  destruct H as [H|H].
  - rewrite (proj2 (Nat.leb_gt _ 13)), andb_false_r by lia.
    rewrite (proj2 (Nat.leb_gt _ 32)), andb_false_r by lia. done.
  - rewrite H. done.
Qed.

Lemma plain_not_char c (x : ascii) :
  plain c →
  ¬ ((48 ≤ nat_of_ascii x ≤ 57)%nat ∨ nat_of_ascii x = 45%nat) →
  c ≠ x.
Proof. intros H%plain_code Hx ->. done. Qed.

Lemma lstrip_head c s : is_space c = false → lstrip (c :: s) = c :: s.
Proof. intros H. simpl. by rewrite H. Qed.

Lemma lstrip_spaces pre s :
  Forall (λ c, is_space c = true) pre → lstrip (pre ++ s) = lstrip s.
Proof. induction 1 as [|c pre Hc _ IH]; [done|]. simpl. by rewrite Hc. Qed.

Lemma rstrip_spaces s post :
  Forall (λ c, is_space c = true) post → rstrip (s ++ post) = rstrip s.
Proof.
  intros H. unfold rstrip. rewrite reverse_app, lstrip_spaces; [done|].
  by apply Forall_reverse.
Qed.

Lemma rstrip_last s c : is_space c = false → rstrip (s ++ [c]) = s ++ [c].
Proof.
  intros H. unfold rstrip. rewrite reverse_app. simpl.
  rewrite H. by rewrite reverse_cons, reverse_involutive.
Qed.

(** Text that starts and ends with a character that is no space, between
    spaces: [strip] gives the text. *)
Lemma strip_between pre s post :
  Forall (λ c, is_space c = true) pre →
  Forall (λ c, is_space c = true) post →
  s ≠ [] →
  (∀ c, head s = Some c → is_space c = false) →
  (∀ c, last s = Some c → is_space c = false) →
  strip (pre ++ s ++ post) = s.
Proof.
  intros Hpre Hpost Hs Hhd Hlast. unfold strip.
  rewrite lstrip_spaces by done.
  destruct s as [|c s]; [done|]. rewrite <-app_comm_cons.
  rewrite lstrip_head by (by apply Hhd).
  rewrite app_comm_cons, rstrip_spaces by done.
  assert (c :: s ≠ []) as Hne by done.
  revert Hne Hlast. generalize (c :: s). clear. intros l Hne Hlast.
  destruct (exists_last Hne) as (s' & c' & ->).
  apply rstrip_last, Hlast. by rewrite last_snoc.
Qed.

Lemma strip_plain pre s post :
  Forall (λ c, is_space c = true) pre →
  Forall (λ c, is_space c = true) post →
  s ≠ [] → Forall plain s →
  strip (pre ++ s ++ post) = s.
Proof.
  intros Hpre Hpost Hs Hp. apply strip_between; try done.
  - intros c Hc. apply plain_not_space.
    rewrite Forall_forall in Hp. apply Hp. destruct s; simplify_eq/=.
    by left.
  - intros c Hc. apply plain_not_space.
    rewrite Forall_forall in Hp. apply Hp. by apply last_Some_elem_of.
Qed.

(** Reading back what [str] wrote, between spaces. *)
Lemma int_str pre z post :
  Forall (λ c, is_space c = true) pre →
  Forall (λ c, is_space c = true) post →
  int (pre ++ str z ++ post) = Ok z.
Proof.
  intros Hpre Hpost. unfold int.
  rewrite (strip_plain pre (str z) post Hpre Hpost (str_nonempty z)
             (str_plain z)).
  destruct z as [|p|p].
  - done.
  - rewrite str_pos.
    pose proof (chars_digits (Pos.to_uint p)) as Hdig.
    pose proof (int_digits_start (Pos.to_uint p)
                  (Unsigned.to_uint_nonnil p)) as Hint.
    rewrite Unsigned.of_to in Hint.
    destruct (chars (Pos.to_uint p)) as [|c t]; [done|].
    apply Forall_cons in Hdig as [Hc%digit_of_Some _].
    rewrite !decide_False by (intros ->; vm_compute in Hc; lia).
    by rewrite Hint.
  - rewrite str_neg. rewrite decide_True by done.
    rewrite int_digits_start by apply Unsigned.to_uint_nonnil.
    by rewrite Unsigned.of_to.
Qed.

Lemma strip_str pre z :
  Forall (λ c, is_space c = true) pre → strip (pre ++ str z) = str z.
Proof.
  intros Hpre. rewrite <-(app_nil_r (str z)) at 1.
  by apply strip_plain; [..|apply str_nonempty|apply str_plain].
Qed.

Lemma int_str_plain z : int (str z) = Ok z.
Proof.
  rewrite <-(app_nil_r (str z)). by apply (int_str [] z []).
Qed.

(** ** Text: splitting and joining *)

Lemma split_no_sep sep s : sep ∉ s → split sep s = [s].
Proof.
  induction s as [|c s IH]; [done|]. intros [Hc Hs]%not_elem_of_cons.
  simpl. rewrite decide_False by done. by rewrite IH.
Qed.

Lemma split_app_sep sep s t :
  sep ∉ s → split sep (s ++ sep :: t) = s :: split sep t.
Proof.
  induction s as [|c s IH]; simpl.
  - intros _. by rewrite decide_True.
  - intros [Hc Hs]%not_elem_of_cons.
    rewrite decide_False by done. by rewrite IH.
Qed.

(** Splitting a joined list: the pieces, each after the rest of the
    separator. *)
Lemma split_join sep rest pre s ss :
  sep ∉ rest → sep ∉ pre → Forall (λ t, sep ∉ t) (s :: ss) →
  split sep (pre ++ join (sep :: rest) (s :: ss))
  = (pre ++ s) :: ((λ t, rest ++ t) <$> ss).
Proof.
  intros Hrest. revert pre s.
  induction ss as [|s' ss IH]; intros pre s Hpre [Hs Hss]%Forall_cons.
  - simpl. apply split_no_sep. rewrite elem_of_app. tauto.
  - change (join (sep :: rest) (s :: s' :: ss))
      with (s ++ (sep :: rest) ++ join (sep :: rest) (s' :: ss)).
    rewrite app_assoc, <-app_comm_cons.
    rewrite split_app_sep by (rewrite elem_of_app; tauto).
    by rewrite (IH rest s').
Qed.

Lemma plain_no_comma c : plain c → c ≠ ","%char.
Proof. intros H. apply plain_not_char; [done|]. vm_compute. lia. Qed.

Lemma plain_no_newline c : plain c → c ≠ "010"%char.
Proof. intros H. apply plain_not_char; [done|]. vm_compute. lia. Qed.

Lemma plain_no_hash c : plain c → c ≠ "#"%char.
Proof. intros H. apply plain_not_char; [done|]. vm_compute. lia. Qed.

Lemma plain_no_underscore c : plain c → c ≠ "_"%char.
Proof. intros H. apply plain_not_char; [done|]. vm_compute. lia. Qed.

Lemma str_no_char z (x : ascii) : (∀ c, plain c → c ≠ x) → x ∉ str z.
Proof.
  intros Hx Hin. pose proof (str_plain z) as Hp.
  rewrite Forall_forall in Hp. by apply (Hx x (Hp x Hin)).
Qed.

Lemma mapM_result_cons {A B} (f : A → result B) x l :
  mapM f (x :: l) = (y ← f x; k ← mapM f l; mret (y :: k)).
Proof. done. Qed.

Lemma mapM_result_ok {A B} (f : A → result B) l k :
  Forall2 (λ x y, f x = Ok y) l k → mapM f l = Ok k.
Proof.
  induction 1 as [|x y l k Hx _ IH]; [done|].
  rewrite mapM_result_cons, Hx. simpl. by rewrite IH.
Qed.

(** Joined pieces of plain text start and end with plain text. *)
Lemma join_ends sep ss c :
  ss ≠ [] → Forall (λ t, t ≠ [] ∧ Forall plain t) ss →
  head (join sep ss) = Some c ∨ last (join sep ss) = Some c → plain c.
Proof.
  induction ss as [|s ss IH]; [done|]. intros _ [[Hs Hp] Hss]%Forall_cons.
  rewrite Forall_forall in Hp.
  destruct ss as [|s' ss].
  - simpl. intros [Hc|Hc]; apply Hp.
    + destruct s; simplify_eq/=. by left.
    + by apply last_Some_elem_of.
  - change (join sep (s :: s' :: ss)) with (s ++ sep ++ join sep (s' :: ss)).
    intros [Hc|Hc].
    + apply Hp. destruct s; simplify_eq/=. by left.
    + apply IH; [done|done|]. right.
      rewrite !last_app in Hc.
      destruct (last (join sep (s' :: ss))) eqn:Hj; [done|].
      exfalso. apply Forall_cons in Hss as [[Hs' _] _].
      apply last_None in Hj. simpl in Hj.
      destruct ss; [done|]. by destruct s'.
Qed.

Lemma strip_join sep ss :
  ss ≠ [] → Forall (λ t, t ≠ [] ∧ Forall plain t) ss →
  strip (join sep ss) = join sep ss.
Proof.
  intros Hne Hss.
  rewrite <-(app_nil_r (join sep ss)) at 1.
  apply (strip_between [] (join sep ss) []); try done.
  - destruct ss as [|s ss]; [done|].
    apply Forall_cons in Hss as [[Hs _] _].
    simpl. destruct s, ss; done.
  - intros c Hc. apply plain_not_space, (join_ends sep ss c); auto.
  - intros c Hc. apply plain_not_space, (join_ends sep ss c); auto.
Qed.

Lemma str_pieces (l : list Z) :
  Forall (λ t, t ≠ [] ∧ Forall plain t) (str <$> l).
Proof.
  apply Forall_fmap, Forall_forall. intros z _. simpl.
  split; [apply str_nonempty|apply str_plain].
Qed.

(** ** The key file *)

(** Reading the text that [save_key_to_file] writes for a key with at
    least one entry. *)
Lemma key_string_read key :
  key ≠ [] →
  mapM (λ s, int (strip s))
    (split ","%char
       (strip (join (list_ascii_of_string ", ") (str <$> key))))
  = Ok key.
Proof.
  intros Hkey.
  rewrite strip_join; [|by destruct key|apply str_pieces].
  destruct key as [|k key]; [done|]. clear Hkey.
  rewrite fmap_cons.
  change (list_ascii_of_string ", ") with [","%char; " "%char].
  rewrite <-(app_nil_l (join _ _)).
  rewrite (split_join ","%char [" "%char] [] (str k) (str <$> key)).
  - apply mapM_result_ok. constructor.
    + rewrite app_nil_l. rewrite <-(app_nil_l (str k)) at 1.
      rewrite (strip_str [] k) by done. apply int_str_plain.
    + apply Forall2_fmap_l, Forall2_fmap_l, Forall_Forall2_diag, Forall_forall.
      intros z _. unfold compose.
      rewrite (strip_str [" "%char] z) by (by repeat constructor).
      apply int_str_plain.
  - apply not_elem_of_cons. split; [done|apply not_elem_of_nil].
  - apply not_elem_of_nil.
  - apply Forall_forall. intros t Ht.
    change (t ∈ str <$> (k :: key)) in Ht.
    apply list_elem_of_fmap in Ht as (z & -> & _).
    apply str_no_char, plain_no_comma.
Qed.

Lemma save_key_to_file_run key path w :
  save_key_to_file key path w =
    (Ok (), World (heap w)
              (<[path := join (list_ascii_of_string ", ") (str <$> key)]>
                 (files w))
              (trace w)).
Proof.
  unfold save_key_to_file. rewrite bind_M_eq.
  unfold open_w, file_write. cbn [heap files trace].
  by rewrite lookup_insert_eq, insert_insert_eq.
Qed.

Lemma load_key_from_file_run path w content :
  files w !! path = Some content →
  load_key_from_file path w =
    (mapM (λ s, int (strip s)) (split ","%char (strip content)), w).
Proof.
  intros Hf. unfold load_key_from_file. rewrite bind_M_eq.
  unfold file_read. by rewrite Hf.
Qed.

(** C7.  For a key that passes [validate_key], writing it with
    [save_key_to_file] and reading the file back with [load_key_from_file]
    returns the key. *)
Theorem key_file_roundtrip key path w :
  validate_key key = Ok () →
  ∃ w', (save_key_to_file key path;; load_key_from_file path) w
        = (Ok key, w').
Proof.
  intros Hp%valid_key_perm.
  assert (key ≠ []) as Hne.
  { intros ->. apply Permutation_length in Hp. done. }
  eexists. rewrite bind_M_eq, save_key_to_file_run.
  erewrite load_key_from_file_run by apply lookup_insert_eq.
  by rewrite key_string_read.
Qed.

Lemma key_file_roundtrip_witness :
  ∃ w', (save_key_to_file (reverse (range 256)) "key.txt";;
         load_key_from_file "key.txt") (World ∅ ∅ [])
        = (Ok (reverse (range 256)), w').
Proof. apply key_file_roundtrip. by vm_compute. Defined.

(** ** The flattened pixel file: writing *)

Lemma chunks_fmap {A B} (f : A → B) fuel c (l : list A) :
  chunks fuel c (f <$> l) = fmap (M:=list) f <$> chunks fuel c l.
Proof.
  revert l. induction fuel as [|fuel IH]; intros l; [done|].
  destruct l as [|x l]; [done|].
  change (chunks (S fuel) c (f <$> x :: l))
    with (take c (f <$> x :: l) :: chunks fuel c (drop c (f <$> x :: l))).
  change (chunks (S fuel) c (x :: l))
    with (take c (x :: l) :: chunks fuel c (drop c (x :: l))).
  rewrite (fmap_cons (fmap f)), <-IH, <-fmap_drop, <-fmap_take. done.
Qed.

(** Rows of [c] elements cut from a list of [n * c] elements. *)
Lemma chunks_rows {A} c (l : list A) n fuel :
  (0 < c)%nat → length l = (n * c)%nat → (n ≤ fuel)%nat →
  length (chunks fuel c l) = n ∧
  Forall (λ r, length r = c) (chunks fuel c l) ∧
  concat (chunks fuel c l) = l.
Proof.
  intros Hc. revert l fuel. induction n as [|n IH]; intros l fuel Hl Hf.
  - destruct l; [|done]. by destruct fuel.
  - destruct fuel as [|fuel]; [lia|].
    destruct l as [|x l]; [simpl in Hl; lia|].
    destruct (IH (drop c (x :: l)) fuel) as (Hlen & Hall & Hcat).
    { rewrite length_drop, Hl. lia. }
    { lia. }
    simpl chunks. split; [simpl; by rewrite Hlen|]. split.
    + constructor; [|done]. rewrite length_take, Hl. lia.
    + simpl concat. rewrite Hcat. apply take_drop.
Qed.

Lemma savetxt_line_ints (r : list Z) :
  savetxt_line (Some <$> r) = Ok (csv_line r).
Proof.
  unfold savetxt_line.
  rewrite (mapM_result_ok _ (Some <$> r) (str <$> r)); [done|].
  apply Forall2_fmap_l, Forall2_fmap_r, Forall_Forall2_diag, Forall_forall.
  done.
Qed.

Lemma write_rows path (rs : list (list Z)) w old :
  files w !! path = Some old →
  for_each (fmap (M:=list) Some <$> rs)
    (λ row, line ← lift (savetxt_line row); file_write path line) w
  = (Ok (), World (heap w)
              (<[path := old ++ concat (csv_line <$> rs)]> (files w))
              (trace w)).
Proof.
  revert w old. induction rs as [|r rs IH]; intros w old Hold.
  - simpl. rewrite app_nil_r, insert_id by done. by destruct w.
  - rewrite fmap_cons, for_each_cons, bind_M_eq.
    unfold lift at 1. rewrite savetxt_line_ints.
    unfold file_write at 1. rewrite Hold. cbn [default].
    erewrite IH by apply lookup_insert_eq. cbn [heap files trace].
    by rewrite insert_insert_eq, fmap_cons, concat_cons, <-app_assoc.
Qed.

Lemma save_image_to_csv_run w img sh rows cols d path n :
  heap w !! img = Some (IntArray sh d) →
  last sh = Some 3%nat →
  length d = (n * 3)%nat →
  save_image_to_csv img path rows cols w =
    (Ok (), World (heap w) (<[path := csv_text rows cols d]> (files w))
              (trace w)).
Proof.
  intros Himg Hsh Hd. unfold save_image_to_csv.
  rewrite bind_M_eq. unfold deref at 1. rewrite Himg.
  rewrite bind_M_eq. unfold lift at 1, reshape_rows. cbn [shape].
  rewrite Hsh. unfold size. cbn [elements].
  rewrite length_fmap, chunks_fmap.
  rewrite bind_M_eq. unfold open_w at 1.
  rewrite bind_M_eq. unfold file_write at 1. cbn [heap files trace].
  rewrite lookup_insert_eq. cbn [default]. rewrite app_nil_l.
  erewrite write_rows by apply lookup_insert_eq. cbn [heap files trace].
  by rewrite !insert_insert_eq.
Qed.

(** ** The flattened pixel file: reading *)

Lemma readline_line s rest :
  "010"%char ∉ s → readline (s ++ "010"%char :: rest) = (s ++ ["010"%char], rest).
Proof.
  induction s as [|c s IH].
  - intros _. done.
  - intros [Hc Hs]%not_elem_of_cons. rewrite <-app_comm_cons.
    cbn [readline]. rewrite decide_False by done. by rewrite IH.
Qed.

Lemma newline_space : Forall (λ c, is_space c = true) ["010"%char].
Proof. by repeat constructor. Qed.

(** The header line gives back the two lengths. *)
Lemma read_dimensions_header rows cols :
  read_dimensions (strip (str rows ++ [","%char] ++ str cols ++ ["010"%char]))
  = Ok (rows, cols).
Proof.
  assert (strip (str rows ++ [","%char] ++ str cols ++ ["010"%char])
          = str rows ++ ","%char :: str cols) as ->.
  { rewrite <-(app_nil_l (str rows ++ _)).
    replace (str rows ++ [","%char] ++ str cols ++ ["010"%char])
      with ((str rows ++ ","%char :: str cols) ++ ["010"%char])
      by (by rewrite <-app_assoc).
    apply strip_between; [done|apply newline_space| | |].
    - pose proof (str_nonempty rows). by destruct (str rows).
    - intros c Hc. apply plain_not_space.
      pose proof (str_plain rows) as Hp. pose proof (str_nonempty rows).
      destruct (str rows); [done|]. apply Forall_cons in Hp as [Hp _].
      by simplify_eq/=.
    - intros c Hc. apply plain_not_space.
      pose proof (str_plain cols) as Hp. rewrite Forall_forall in Hp.
      apply Hp, last_Some_elem_of.
      rewrite (last_app _ (","%char :: str cols)) in Hc.
      rewrite last_cons in Hc.
      pose proof (str_nonempty cols) as Hne.
      destruct (last (str cols)) eqn:Hl; [done|].
      by apply last_None in Hl. }
  unfold read_dimensions.
  rewrite split_app_sep by apply str_no_char, plain_no_comma.
  rewrite split_no_sep by apply str_no_char, plain_no_comma.
  by rewrite !int_str_plain.
Qed.

Lemma csv_body_no_char (x : ascii) (r : list Z) :
  (∀ c, plain c → c ≠ x) → x ≠ ","%char →
  x ∉ join [","%char] (str <$> r).
Proof.
  intros Hx Hcomma. induction r as [|z r IH]; [apply not_elem_of_nil|].
  destruct r as [|z' r]; [by apply str_no_char|].
  change (join [","%char] (str <$> z :: z' :: r))
    with (str z ++ [","%char] ++ join [","%char] (str <$> z' :: r)).
  rewrite !elem_of_app, list_elem_of_singleton.
  pose proof (str_no_char z x Hx). tauto.
Qed.

Lemma before_comment_id s : "#"%char ∉ s → before_comment s = s.
Proof.
  induction s as [|c s IH]; [done|]. intros [Hc Hs]%not_elem_of_cons.
  simpl. rewrite decide_False by done. by rewrite IH.
Qed.

(** A line written for a row with an element is read back as the row. *)
Lemma loadtxt_line_body (r : list Z) :
  r ≠ [] → Forall fits_int r →
  loadtxt_line (join [","%char] (str <$> r)) = Ok (Some r).
Proof.
  intros Hr Hfit. unfold loadtxt_line.
  rewrite before_comment_id
    by (apply csv_body_no_char; [apply plain_no_hash|done]).
  destruct r as [|z r]; [done|].
  assert (join [","%char] (str <$> z :: r) ≠ []) as Hne.
  { pose proof (str_nonempty z). rewrite fmap_cons.
    simpl. destruct (str z), (str <$> r); done. }
  destruct (join [","%char] (str <$> z :: r)) as [|c t] eqn:Hj; [done|].
  rewrite <-Hj. clear Hj Hne c t.
  rewrite <-(app_nil_l (join _ _)), fmap_cons.
  rewrite (split_join ","%char [] [] (str z) (str <$> r)).
  - rewrite (mapM_result_ok _ _ (z :: r)); [done|].
    rewrite app_nil_l.
    change (str z :: ((λ t, [] ++ t) <$> (str <$> r)))
      with ((λ t, [] ++ t) <$> (str <$> (z :: r))).
    apply Forall2_fmap_l, Forall2_fmap_l, Forall2_same_length_lookup.
    split; [done|]. intros i x y Hx Hy. simplify_eq. unfold compose.
    rewrite app_nil_l. unfold loadtxt_field.
    rewrite decide_False by apply str_no_char, plain_no_underscore.
    rewrite int_str_plain. simpl.
    rewrite decide_True; [done|].
    by eapply (Forall_lookup_1 _ _ _ _ Hfit).
  - apply not_elem_of_nil.
  - apply not_elem_of_nil.
  - apply Forall_forall. intros t Ht.
    change (t ∈ str <$> (z :: r)) in Ht.
    apply list_elem_of_fmap in Ht as (z' & -> & _).
    apply str_no_char, plain_no_comma.
Qed.

Lemma split_lines (rs : list (list Z)) :
  split "010"%char (concat (csv_line <$> rs))
  = ((λ r, join [","%char] (str <$> r)) <$> rs) ++ [[]].
Proof.
  induction rs as [|r rs IH]; [done|].
  rewrite fmap_cons, concat_cons. unfold csv_line at 1.
  rewrite <-app_assoc. simpl ([_] ++ _).
  rewrite split_app_sep
    by (apply csv_body_no_char; [apply plain_no_newline|done]).
  by rewrite IH.
Qed.

(** [np.loadtxt] on the lines written for rows of three integers. *)
Lemma np_loadtxt_rows (rs : list (list Z)) :
  Forall (λ r, length r = 3%nat) rs →
  Forall (Forall fits_int) rs →
  ∃ sh, np_loadtxt (concat (csv_line <$> rs)) = Ok (IntArray sh (concat rs)).
Proof.
  intros Hlen Hfit. unfold np_loadtxt. rewrite split_lines.
  rewrite (mapM_result_ok _ _ ((Some <$> rs) ++ [None])).
  - assert (omap id ((Some <$> rs) ++ [None]) = rs) as Hom.
    { rewrite omap_app. cbn [omap list_omap id]. rewrite app_nil_r.
      clear. induction rs as [|r rs IH]; [done|].
      rewrite fmap_cons. cbn [omap list_omap id]. by f_equal. }
    unfold mbind, result_bind. rewrite Hom.
    destruct rs as [|r rs]; [by eexists|].
    apply Forall_cons in Hlen as [Hr Hlen].
    rewrite decide_True; [by eexists|].
    eapply Forall_impl; [done|]. simpl. congruence.
  - apply Forall2_app; [|by repeat constructor].
    apply Forall2_fmap, Forall_Forall2_diag, Forall_forall.
    intros r Hr. apply loadtxt_line_body.
    + rewrite Forall_forall in Hlen. specialize (Hlen r Hr).
      by destruct r.
    + rewrite Forall_forall in Hfit. by apply Hfit.
Qed.

Lemma np_reshape3_fits sh (d : list Z) (rows cols : nat) :
  length d = (rows * cols * 3)%nat →
  np_reshape3 (IntArray sh d) (Z.of_nat rows) (Z.of_nat cols)
  = Ok (IntArray [rows; cols; 3%nat] d).
Proof.
  intros Hd. unfold np_reshape3, size. cbn [elements].
  rewrite length_fmap, Hd.
  rewrite decide_True by lia. rewrite decide_True by lia.
  by rewrite !Nat2Z.id.
Qed.

(** Reading the file written for a buffer of shape (rows, cols, 3). *)
Lemma load_image_from_csv_run w path (rows cols : nat) d :
  files w !! path = Some (csv_text (Z.of_nat rows) (Z.of_nat cols) d) →
  length d = (rows * cols * 3)%nat →
  Forall fits_int d →
  load_image_from_csv path w =
    (Ok (Some (fresh (dom (heap w)), Z.of_nat rows, Z.of_nat cols)),
     World (<[fresh (dom (heap w)) := IntArray [rows; cols; 3%nat] d]>
              (heap w)) (files w) (trace w)).
Proof.
  intros Hf Hd Hfit. unfold load_image_from_csv. rewrite Hf.
  destruct (chunks_rows 3 d (rows * cols) (length d))
    as (_ & Hrows & Hcat); [lia|lia|lia|].
  unfold csv_text.
  replace ((str (Z.of_nat rows) ++ [","%char] ++ str (Z.of_nat cols)
              ++ ["010"%char]) ++ concat (csv_line <$> chunks (length d) 3 d))
    with ((str (Z.of_nat rows) ++ [","%char] ++ str (Z.of_nat cols))
            ++ "010"%char :: concat (csv_line <$> chunks (length d) 3 d))
    by (by rewrite <-!app_assoc).
  rewrite readline_line.
  2: { rewrite !elem_of_app, list_elem_of_singleton.
       pose proof (str_no_char (Z.of_nat rows) _ plain_no_newline).
       pose proof (str_no_char (Z.of_nat cols) _ plain_no_newline).
       intros [?|[?|?]]; done. }
  rewrite <-!app_assoc, read_dimensions_header.
  destruct (np_loadtxt_rows (chunks (length d) 3 d)) as [sh Hload];
    [done|by rewrite <-Hcat, Forall_concat in Hfit|].
  cbn [mbind result_bind]. unfold mbind, result_bind.
  rewrite Hload, Hcat, np_reshape3_fits by done.
  done.
Qed.

Lemma chunks_lookup {A} fuel c (l : list A) p r :
  chunks fuel c l !! p = Some r → r = take c (drop (p * c) l).
Proof.
  revert l p. induction fuel as [|fuel IH]; intros l p; [done|].
  destruct l as [|x l]; [done|].
  change (chunks (S fuel) c (x :: l))
    with (take c (x :: l) :: chunks fuel c (drop c (x :: l))).
  destruct p as [|p].
  - by intros [= <-].
  - intros Hr%IH. rewrite drop_drop in Hr.
    by replace (S p * c)%nat with (c + p * c)%nat by lia.
Qed.

Lemma take3_lookup {A} (l : list A) n x y z :
  l !! n = Some x → l !! (n + 1)%nat = Some y → l !! (n + 2)%nat = Some z →
  take 3 (drop n l) = [x; y; z].
Proof.
  rewrite <-(Nat.add_0_r n) at 1. rewrite <-!lookup_drop.
  destruct (drop n l) as [|a [|b [|c t]]]; try done.
  by intros [= ->] [= ->] [= ->].
Qed.

(** C8.  [save_image_to_csv], given a buffer of shape (rows, cols, 3) and
    its own row and column counts, writes the line "<rows>,<cols>" and
    then rows*cols lines, the p-th of which holds the three values of the
    p-th pixel in row-major order, separated by commas.
    [load_image_from_csv] reads that file back to a buffer of the same
    shape with the same elements, next to the original. *)
Theorem csv_roundtrip w img (rows cols : nat) d path :
  heap w !! img = Some (IntArray [rows; cols; 3%nat] d) →
  length d = (rows * cols * 3)%nat →
  Forall fits_int d →
  ∃ l w' lines,
    (save_image_to_csv img path (Z.of_nat rows) (Z.of_nat cols);;
     load_image_from_csv path) w
    = (Ok (Some (l, Z.of_nat rows, Z.of_nat cols)), w') ∧
    files w' !! path
    = Some ((str (Z.of_nat rows) ++ [","%char] ++ str (Z.of_nat cols)
               ++ ["010"%char]) ++ concat lines) ∧
    length lines = (rows * cols)%nat ∧
    (∀ p x y z,
       d !! (3 * p)%nat = Some x → d !! (3 * p + 1)%nat = Some y →
       d !! (3 * p + 2)%nat = Some z →
       lines !! p = Some (str x ++ [","%char] ++ str y ++ [","%char]
                            ++ str z ++ ["010"%char])) ∧
    heap w' !! l = Some (IntArray [rows; cols; 3%nat] d) ∧
    l ≠ img ∧
    heap w' !! img = Some (IntArray [rows; cols; 3%nat] d).
Proof.
  intros Himg Hd Hfit.
  rewrite bind_M_eq.
  rewrite (save_image_to_csv_run w img _ _ _ d path (rows * cols) Himg)
    by done.
  erewrite load_image_from_csv_run; [|apply lookup_insert_eq|done|done].
  cbn [heap files trace].
  assert (fresh (dom (heap w)) ≠ img) as Hne.
  { intros Heq. apply (is_fresh (dom (heap w))). rewrite Heq.
    apply elem_of_dom. eauto. }
  destruct (chunks_rows 3 d (rows * cols) (length d))
    as (Hlen & _ & _); [lia|lia|lia|].
  eexists _, _, (csv_line <$> chunks (length d) 3 d).
  split; [done|]. cbn [heap files].
  split; [by rewrite lookup_insert_eq|].
  split; [by rewrite length_fmap|].
  split; [|split; [apply lookup_insert_eq|split; [done|]]].
  - intros p x y z Hx Hy Hz.
    assert (p < length (chunks (length d) 3 d))%nat as Hp.
    { rewrite Hlen. apply lookup_lt_Some in Hx. lia. }
    destruct (lookup_lt_is_Some_2 _ _ Hp) as [r Hr].
    rewrite list_lookup_fmap, Hr. cbn [fmap option_fmap option_map].
    apply chunks_lookup in Hr.
    rewrite (Nat.mul_comm p 3), (take3_lookup d (3 * p) x y z) in Hr by done.
    subst r. unfold csv_line. cbn [fmap list_fmap join].
    by rewrite <-!app_assoc.
  - by rewrite lookup_insert_ne.
Qed.

(** The spec's scenario: the buffer of shape (2, 2, 3) with values 0..11. *)
Lemma csv_roundtrip_witness :
  ∃ l w' lines,
    (save_image_to_csv 1%positive "encrypted_image.csv" 2 2;;
     load_image_from_csv "encrypted_image.csv")
      (store_of (IntArray [2; 2; 3]%nat (range 12)))
    = (Ok (Some (l, 2, 2)), w') ∧
    files w' !! "encrypted_image.csv"%string
    = Some ((str 2 ++ [","%char] ++ str 2 ++ ["010"%char]) ++ concat lines) ∧
    length lines = 4%nat ∧
    (∀ p x y z,
       range 12 !! (3 * p)%nat = Some x → range 12 !! (3 * p + 1)%nat = Some y →
       range 12 !! (3 * p + 2)%nat = Some z →
       lines !! p = Some (str x ++ [","%char] ++ str y ++ [","%char]
                            ++ str z ++ ["010"%char])) ∧
    heap w' !! l = Some (IntArray [2; 2; 3]%nat (range 12)) ∧
    l ≠ 1%positive ∧
    heap w' !! 1%positive = Some (IntArray [2; 2; 3]%nat (range 12)).
Proof.
  apply (csv_roundtrip (store_of (IntArray [2; 2; 3]%nat (range 12)))
           1%positive 2%nat 2%nat (range 12) "encrypted_image.csv").
  - reflexivity.
  - reflexivity.
  - apply (bool_decide_unpack _). by vm_compute.
Defined.

(** The file of that scenario, as [save_image_to_csv] writes it and as
    it still is after [load_image_from_csv]: the header "2,2" and four
    lines of three values. *)
Lemma csv_scenario_file :
  let r := (save_image_to_csv 1%positive "encrypted_image.csv" 2 2;;
            load_image_from_csv "encrypted_image.csv")
             (store_of (IntArray [2; 2; 3]%nat (range 12))) in
  string_of_list_ascii <$> files r.2 !! "encrypted_image.csv"%string
  = Some (String.concat (String "010" "")
            ["2,2"; "0,1,2"; "3,4,5"; "6,7,8"; "9,10,11"; ""]%string).
Proof. by vm_compute. Qed.

(** ** The decryption run *)

Lemma key_stage_world u w r w' : key_stage u w = (r, w') → w' = w.
Proof.
  unfold key_stage, load_key_from_file, file_read, lift.
  rewrite !bind_M_eq.
  destruct (files w !! key_file_choice u) as [s|]; [|by intros [= _ <-]].
  destruct (mapM _ _) as [key|e]; [|by intros [= _ <-]].
  rewrite bind_M_eq.
  destruct (validate_key key); by intros [= _ <-].
Qed.

Lemma key_stage_valid u w key w' :
  key_stage u w = (Ok key, w') → validate_key key = Ok ().
Proof.
  unfold key_stage, load_key_from_file, file_read, lift.
  rewrite !bind_M_eq.
  destruct (files w !! key_file_choice u) as [s|]; [|done].
  destruct (mapM _ _) as [k|e]; [|done].
  rewrite bind_M_eq.
  destruct (validate_key k) as [[]|] eqn:Hv; [|done].
  by intros [= <- _].
Qed.

Lemma alloc_frame a w l w' :
  alloc a w = (Ok l, w') → files w' = files w ∧ trace w' = trace w.
Proof. by intros [= _ <-]. Qed.

Lemma load_image_from_csv_frame path w r w' :
  load_image_from_csv path w = (r, w') →
  files w' = files w ∧ trace w' = trace w.
Proof.
  unfold load_image_from_csv.
  destruct (files w !! path) as [content|]; [|by intros [= _ <-]].
  destruct (readline content) as [first rest].
  destruct (_ ≫= _) as [[[img rows] cols]|e]; [|by intros [= _ <-]].
  rewrite bind_M_eq. unfold alloc. by intros [= _ <-].
Qed.

Lemma decrypt_image_frame img key w r w' :
  decrypt_image img key w = (r, w') →
  files w' = files w ∧ trace w' = trace w.
Proof.
  unfold decrypt_image, np_vectorize. rewrite bind_M_eq. unfold deref.
  destruct (heap w !! img) as [a|]; [|by intros [= _ <-]].
  destruct (elements a) as [|x0 xs]; [by intros [= _ <-]|].
  destruct (dict_get _ x0); [|by intros [= _ <-]].
  destruct (mapM id _); by intros [= _ <-].
Qed.

Lemma foldl_min_le x (d : list Z) y : y ∈ x :: d → foldl Z.min x d ≤ y.
Proof.
  revert x y. induction d as [|z d IH]; intros x y.
  - intros ->%list_elem_of_singleton. simpl. lia.
  - intros Hy. simpl.
    assert (foldl Z.min (Z.min x z) d ≤ Z.min x z) as Hm
      by (apply IH; by left).
    apply elem_of_cons in Hy as [->|Hy]; [lia|].
    apply elem_of_cons in Hy as [->|Hy]; [lia|].
    apply IH. by right.
Qed.

Lemma foldl_max_ge x (d : list Z) y : y ∈ x :: d → y ≤ foldl Z.max x d.
Proof.
  revert x y. induction d as [|z d IH]; intros x y.
  - intros ->%list_elem_of_singleton. simpl. lia.
  - intros Hy. simpl.
    assert (Z.max x z ≤ foldl Z.max (Z.max x z) d) as Hm
      by (apply IH; by left).
    apply elem_of_cons in Hy as [->|Hy]; [lia|].
    apply elem_of_cons in Hy as [->|Hy]; [lia|].
    apply IH. by right.
Qed.

(** [validate_image] changes nothing and returns only for an array that is
    a valid output. *)
Lemma validate_image_ok img w w' :
  validate_image img w = (Ok (), w') →
  w' = w ∧ ∃ a, heap w !! img = Some a ∧ valid_output a ∧ elements a ≠ [].
Proof.
  unfold validate_image. rewrite bind_M_eq. unfold deref.
  destruct (heap w !! img) as [a|]; [|done].
  case_decide as Hn; [done|]. case_decide as Hc; [done|].
  rewrite bind_M_eq. unfold lift, np_min_max.
  destruct (mapM id (elements a)) as [[|x d]|] eqn:Hm; [done| |done].
  case_decide as Hr; [done|]. intros [= <-]. split; [done|].
  exists a. split; [done|].
  split; [|intros Hnil; by rewrite Hnil in Hm].
  split; [by destruct (decide (length (shape a) = 3%nat))|].
  split; [by destruct (decide (last (shape a) = Some 3%nat))|].
  apply mapM_Some in Hm. apply Forall_forall. intros e He.
  apply list_elem_of_lookup in He as [i Hi].
  destruct (Forall2_lookup_l _ _ _ _ _ Hm Hi) as (v & Hv & Hev).
  simpl in Hev. exists v. split; [done|].
  apply list_elem_of_lookup_2 in Hv.
  pose proof (foldl_min_le x d v Hv). pose proof (foldl_max_ge x d v Hv).
  lia.
Qed.

Lemma validate_image_world img w r w' :
  validate_image img w = (r, w') → w' = w.
Proof.
  unfold validate_image. rewrite bind_M_eq. unfold deref.
  destruct (heap w !! img) as [a|]; [|by intros [= _ <-]].
  case_decide; [by intros [= _ <-]|]. case_decide; [by intros [= _ <-]|].
  rewrite bind_M_eq. unfold lift.
  destruct (np_min_max a) as [[lo hi]|]; [|by intros [= _ <-]].
  case_decide; by intros [= _ <-].
Qed.

Lemma clip_uint8_valid a a' :
  length (shape a) = 3%nat → last (shape a) = Some 3%nat →
  clip_uint8 a = Ok a' → valid_output a'.
Proof.
  intros Hn Hc. unfold clip_uint8.
  destruct (mapM id (elements a)) as [d|]; [|done]. intros [= <-].
  split; [done|]. split; [done|]. cbn [elements].
  apply Forall_fmap, Forall_fmap, Forall_forall. intros v _. simpl.
  eexists. split; [done|]. lia.
Qed.

Lemma mapM_id_all {A} (es : list (option A)) (P : A → Prop) :
  Forall (λ x, ∃ v, x = Some v ∧ P v) es →
  ∃ d, mapM id es = Some d ∧ es = Some <$> d ∧ Forall P d.
Proof.
  induction 1 as [|e es (v & -> & Hv) _ (d & Hd & -> & HP)].
  - by exists [].
  - exists (v :: d). split; [|by split; [|constructor]].
    apply mapM_Some. constructor; [done|]. by apply mapM_Some.
Qed.

Lemma clip_uint8_valid_id a :
  valid_output a →
  ∃ a', clip_uint8 a = Ok a' ∧ shape a' = shape a ∧ elements a' = elements a.
Proof.
  intros (_ & _ & Hel).
  destruct (mapM_id_all (elements a) (λ v, 0 ≤ v ≤ 255) Hel)
    as (d & Hm & Hd & Hrange).
  unfold clip_uint8. rewrite Hm. eexists. split; [done|]. split; [done|].
  cbn [elements]. rewrite Hd. f_equal.
  rewrite <-(list_fmap_id d) at 2.
  apply Forall_fmap_ext_1. eapply Forall_impl; [done|]. simpl. lia.
Qed.

Lemma valid_output_bytes rows cols (d : list Z) :
  Forall (λ v, 0 ≤ v ≤ 255) d →
  valid_output (IntArray [rows; cols; 3%nat] d).
Proof.
  intros Hd. split; [done|]. split; [done|]. cbn [elements].
  apply Forall_fmap. eapply Forall_impl; [done|]. simpl. eauto.
Qed.

Lemma plt_imsave_run path a w :
  valid_output a → elements a ≠ [] →
  plt_imsave path a w = emit (SavedPng path a) w.
Proof.
  intros (Hn & Hc & _) Hne. unfold plt_imsave. rewrite bind_M_eq.
  destruct (shape a) as [|r [|c [|ch [|? ?]]]]; try done.
  simpl in Hc. simplify_eq.
  rewrite decide_True by (by left). cbn [mret M_ret].
  by rewrite decide_False.
Qed.

Lemma main_unfold u w :
  main u w =
  if decide (key_file_choice u = ""%string) then (Exit1, w) else
  match key_stage u w with
  | (Err _, w1) => (Exit1, w1)
  | (Ok key, w1) =>
      if decide (img_dir_choice u = ""%string) then (Exit1, w1) else
      match load_image_from_csv
              (path_join (img_dir_choice u) "encrypted_image.csv") w1 with
      | (Err _, w2) | (Ok None, w2) => (Exit1, w2)
      | (Ok (Some (img1_loaded, _, _)), w2) =>
          match decrypt_image img1_loaded key w2 with
          | (Err _, w3) => (Exit1, w3)
          | (Ok img3, w3) =>
              match validate_image img3 w3 with
              | (Err _, w3') => (Exit1, w3')
              | (Ok _, w3') =>
                  match display_image img3 "Decrypted Image" w3' with
                  | (Err _, w4) => (Exit1, w4)
                  | (Ok _, w4) =>
                      if decide (output_dir_choice u = ""%string)
                      then (Exit1, w4)
                      else
                        match save_image_as_png img3
                                (path_join (output_dir_choice u)
                                   "decrypted_image.png") w4 with
                        | (Err _, w5) => (Exit1, w5)
                        | (Ok _, w5) => (Finished, w5)
                        end
                  end
              end
          end
      end
  end.
Proof.
  unfold main. fold (key_stage u). case_decide; [done|].
  destruct (key_stage u w) as [[key|e] w1]; [|done].
  case_decide; [done|].
  destruct (load_image_from_csv _ w1) as [[[[[img r] c]|]|e] w2]; try done.
  rewrite !bind_M_eq.
  destruct (decrypt_image img key w2) as [[img3|e] w3]; [|done].
  rewrite bind_M_eq.
  destruct (validate_image img3 w3) as [[[]|e] w3']; [|done].
  done.
Qed.

(** C4, as the code has it.  When the key cannot be loaded or fails
    [validate_key], the run ends in [exit(1)] with the world as it was:
    no array has been allocated, so no substitution has begun, and
    nothing has been displayed or saved.  For the pixel buffer the check
    comes after the substitution: [validate_image] is applied to the
    output of [decrypt_image].  Still, whatever a run displays or saves
    has passed it: an array of three axes and three channels whose
    elements are all integers in [0, 255]; and no run writes a text
    file. *)
Theorem main_validation u w :
  (∀ e w1, key_stage u w = (Err e, w1) → main u w = (Exit1, w)) ∧
  (∀ o w', main u w = (o, w') →
     files w' = files w ∧
     ∃ new, trace w' = trace w ++ new ∧
            Forall (λ ev, valid_output (event_image ev)) new).
Proof.
  split.
  - intros e w1 Hk. rewrite main_unfold, Hk.
    apply key_stage_world in Hk as ->. by case_decide.
  - intros o w'. rewrite main_unfold.
    assert (∀ v : world, files v = files w → trace v = trace w →
              files v = files w ∧
              ∃ new, trace v = trace w ++ new ∧
                Forall (λ ev, valid_output (event_image ev)) new) as Hstop.
    { intros v Hf Ht. split; [done|]. exists []. by rewrite app_nil_r. }
    case_decide; [intros [= _ <-]; by apply Hstop|].
    destruct (key_stage u w) as [[key|e] w1] eqn:Hk;
      apply key_stage_world in Hk as ->;
      [|intros [= _ <-]; by apply Hstop].
    case_decide; [intros [= _ <-]; by apply Hstop|].
    destruct (load_image_from_csv _ w) as [[[[[img r] c]|]|e] w2] eqn:Hl;
      apply load_image_from_csv_frame in Hl as [Hf2 Ht2];
      try (intros [= _ <-]; by apply Hstop).
    destruct (decrypt_image img key w2) as [[img3|e] w3] eqn:Hd;
      apply decrypt_image_frame in Hd as [Hf3 Ht3];
      [|intros [= _ <-]; apply Hstop; congruence].
    destruct (validate_image img3 w3) as [[[]|e] w3'] eqn:Hv.
    2: { apply validate_image_world in Hv as ->.
         intros [= _ <-]. apply Hstop; congruence. }
    apply validate_image_ok in Hv as (-> & a & Ha & Hvalid & Hne).
    unfold display_image. rewrite bind_M_eq. unfold deref at 1.
    rewrite Ha. unfold emit at 1.
    assert (∀ v : world, files v = files w →
              trace v = trace w ++ [Displayed "Decrypted Image" a] →
              files v = files w ∧
              ∃ new, trace v = trace w ++ new ∧
                Forall (λ ev, valid_output (event_image ev)) new) as Hshown.
    { intros v Hf Ht. split; [done|].
      exists [Displayed "Decrypted Image" a]. split; [done|].
      constructor; [exact Hvalid|constructor]. }
    case_decide;
      [intros [= _ <-]; apply Hshown; cbn [files trace]; congruence|].
    unfold save_image_as_png. rewrite bind_M_eq. unfold deref at 1.
    cbn [heap]. rewrite Ha. rewrite bind_M_eq. unfold lift at 1.
    destruct (clip_uint8 a) as [a'|e] eqn:Hclip;
      [|intros [= _ <-]; apply Hshown; cbn [files trace]; congruence].
    assert (valid_output a') as Hvalid'.
    { destruct Hvalid as (Hn & Hc & Hel). by apply (clip_uint8_valid a a'). }
    destruct (clip_uint8_valid_id a Hvalid) as (a'' & Hclip' & _ & Hel').
    rewrite Hclip in Hclip'. injection Hclip' as <-.
    rewrite plt_imsave_run by (done || congruence).
    unfold emit. intros [= _ <-]. cbn [files trace].
    split; [congruence|].
    exists [Displayed "Decrypted Image" a;
            SavedPng (path_join (output_dir_choice u) "decrypted_image.png")
              a'].
    split; [rewrite Ht3, Ht2, <-app_assoc; done|].
    constructor; [exact Hvalid|]. constructor; [exact Hvalid'|constructor].
Qed.

(** A key file with 255 entries: the run stops before anything else. *)
Lemma main_validation_witness :
  main picks (decrypt_world (range 255) (csv_text 1 1 [10; 20; 30]))
  = (Exit1, decrypt_world (range 255) (csv_text 1 1 [10; 20; 30])).
Proof.
  apply (proj1 (main_validation picks
                  (decrypt_world (range 255) (csv_text 1 1 [10; 20; 30])))
           (ValueError (KeyLength 255))
           (decrypt_world (range 255) (csv_text 1 1 [10; 20; 30]))).
  by vm_compute.
Defined.

(** C4, as the spec words it, fails on the code: with a valid key and a
    loaded buffer that holds 256, the run ends in [exit(1)] with nothing
    displayed, but only after [decrypt_image] has substituted the elements
    of the buffer: its output, with [None] for the 256, is in the store.
    No check of the loaded buffer came before. *)
Lemma main_substitutes_before_checking :
  let r := main picks (decrypt_world (range 256) (csv_text 1 1 [256; 10; 20]))
  in
  r.1 = Exit1 ∧
  heap r.2 !! 1%positive = Some (IntArray [1; 1; 3]%nat [256; 10; 20]) ∧
  heap r.2 !! 2%positive
    = Some (ObjArray [1; 1; 3]%nat [None; Some 10; Some 20]) ∧
  trace r.2 = [].
Proof. by vm_compute. Qed.

(** * Further properties *)

(** ** What [validate_key] accepts and what it reports *)

(** [validate_key] accepts a sequence exactly when it has 256 entries
    among which every value of 0..255 occurs. *)
Theorem validate_key_accepts key :
  validate_key key = Ok () ↔
  length key = 256%nat ∧ ∀ v, 0 ≤ v < 256 → v ∈ key.
Proof.
  rewrite validate_key_ok_iff. split.
  - intros Hp. split.
    + by apply (perm_range_length key 256).
    + intros v Hv. by apply (perm_range_elem key 256 v Hp).
  - intros [Hlen Hall]. apply covers_range_perm.
    + rewrite Hlen. unfold range. by rewrite length_seqZ.
    + intros v [Hv0 Hv]%elem_of_seqZ. apply Hall. lia.
Qed.

(** Of the four errors [validate_key] can raise by its text, only two are
    ever raised: the one for the length and the one that names the missing
    values.  The branches for duplicated values and for the remaining
    case are never reached. *)
Theorem validate_key_errors key e :
  validate_key key = Err e →
  (length key ≠ 256%nat ∧ e = ValueError (KeyLength (length key))) ∨
  (length key = 256%nat ∧
   ∃ missing : gset Z,
     missing ≠ ∅ ∧ e = ValueError (KeyMissing missing) ∧
     ∀ v, v ∈ missing ↔ 0 ≤ v < 256 ∧ v ∉ key).
Proof.
  intros He.
  destruct (decide (length key = 256%nat)) as [Hlen|Hlen].
  - right. split; [done|].
    assert (¬ key ≡ₚ range 256) as Hnp.
    { intros Hp%validate_key_ok_iff. congruence. }
    pose proof (missing_nonempty key Hlen Hnp) as Hne.
    exists (list_to_set (range 256) ∖ list_to_set key). split; [done|]. split.
    + revert He. unfold validate_key.
      rewrite decide_False by (intros Hn; by apply Hn).
      rewrite decide_True by (intros Hs; by apply Hnp, sorted_range_perm).
      rewrite list_to_set_sorted. rewrite decide_True by done. congruence.
    + intros v. rewrite elem_of_difference, !elem_of_list_to_set.
      unfold range. rewrite elem_of_seqZ. split; intros [??]; split; by try lia.
  - left. split; [done|]. revert He. unfold validate_key.
    rewrite decide_True by done. congruence.
Qed.

Lemma validate_key_errors_witness :
  (length (range 255) ≠ 256%nat ∧
   ValueError (KeyLength 255) = ValueError (KeyLength (length (range 255)))) ∨
  (length (range 255) = 256%nat ∧
   ∃ missing : gset Z,
     missing ≠ ∅ ∧ ValueError (KeyLength 255) = ValueError (KeyMissing missing) ∧
     ∀ v, v ∈ missing ↔ 0 ≤ v < 256 ∧ v ∉ range 255).
Proof. apply (validate_key_errors (range 255)). by vm_compute. Defined.

(** ** Reading a key file *)





Lemma lstrip_all_space s :
  Forall (λ c, is_space c = true) s → lstrip s = [].
Proof. induction 1 as [|c s Hc _ IH]; [done|]. simpl. by rewrite Hc. Qed.

(** A key file that is empty or holds only whitespace is refused: the
    one value [split] finds is the empty text, which is no integer. *)
Theorem load_key_from_file_blank path w content :
  files w !! path = Some content →
  Forall (λ c, is_space c = true) content →
  load_key_from_file path w = (Err (ValueError (InvalidLiteral [])), w).
Proof.
  intros Hf Hsp. rewrite (load_key_from_file_run path w _ Hf).
  assert (strip content = []) as ->; [|done].
  unfold strip. by rewrite lstrip_all_space.
Qed.

Lemma load_key_from_file_blank_witness :
  load_key_from_file "key.txt"
    (World ∅ {[ "key.txt"%string := [" "%char; "010"%char] ]} [])
  = (Err (ValueError (InvalidLiteral [])),
     World ∅ {[ "key.txt"%string := [" "%char; "010"%char] ]} []).
Proof.
  apply (load_key_from_file_blank "key.txt" _ [" "%char; "010"%char]).
  - reflexivity.
  - by repeat constructor.
Defined.

(** ** What the substitution leaves alone *)

Lemma for_each_invariant {A} (P : world → Prop) (l : list A)
    (body : A → M unit) v r v' :
  (∀ x u r' u', P u → body x u = (r', u') → P u') →
  P v → for_each l body v = (r, v') → P v'.
Proof.
  intros Hbody. revert v. induction l as [|x l IH]; intros v Hv.
  - by intros [= _ <-].
  - rewrite for_each_cons.
    destruct (body x v) as [[[]|e] u] eqn:Hx.
    + apply IH. by eapply Hbody.
    + intros [= _ <-]. by eapply Hbody.
Qed.

Lemma getitem3_world img i j k v r v' :
  getitem3 img i j k v = (r, v') → v' = v.
Proof.
  unfold getitem3. rewrite bind_M_eq. unfold deref.
  destruct (heap v !! img) as [a|]; [|by intros [= _ <-]].
  destruct (shape a) as [|rows [|cols [|ch [|? ?]]]].
  - by intros [= _ <-].
  - case_decide; by intros [= _ <-].
  - case_decide; by intros [= _ <-].
  - case_decide; [|by intros [= _ <-]].
    destruct (elements a !! _) as [[z|]|]; by intros [= _ <-].
  - case_decide; by intros [= _ <-].
Qed.

Lemma setitem3_frame l1 i j k x v r v' :
  setitem3 l1 i j k x v = (r, v') →
  files v' = files v ∧ trace v' = trace v ∧
  ∀ l, l ≠ l1 → heap v' !! l = heap v !! l.
Proof.
  unfold setitem3.
  destruct (heap v !! l1) as [[sh d|sh d]|]; try (by intros [= _ <-]).
  destruct sh as [|rows [|cols [|ch [|? ?]]]]; try (by intros [= _ <-]).
  case_decide; [|by intros [= _ <-]].
  case_decide; [|by intros [= _ <-]].
  intros [= _ <-]. simpl. split; [done|]. split; [done|].
  intros l Hl. by rewrite lookup_insert_ne.
Qed.

(** Whatever the image and the key, and whether it returns or raises,
    [encrypt_image] writes no file, shows nothing, and leaves every array
    that was in the store as it was; the only location it may add is the
    one of its output array. *)
Theorem encrypt_image_frame img key w r w' :
  encrypt_image img key w = (r, w') →
  files w' = files w ∧ trace w' = trace w ∧
  (∀ l a, heap w !! l = Some a → heap w' !! l = Some a) ∧
  (∀ l, l ≠ fresh (dom (heap w)) → heap w' !! l = heap w !! l).
Proof.
  intros Hrun.
  assert (files w' = files w ∧ trace w' = trace w ∧
          ∀ l, l ≠ fresh (dom (heap w)) → heap w' !! l = heap w !! l)
    as (Hf & Ht & Hh).
  { revert Hrun. unfold encrypt_image. rewrite bind_M_eq.
    unfold shape2. rewrite bind_M_eq. unfold deref.
    destruct (heap w !! img) as [a|]; [|by intros [= _ <-]].
    destruct (shape a) as [|rows [|cols sh]]; try (by intros [= _ <-]).
    unfold mret at 1, M_ret at 1. rewrite bind_M_eq.
    unfold np_zeros, alloc. rewrite bind_M_eq.
    set (l1 := fresh (dom (heap w))). set (w1 := World _ _ _).
    set (P := λ v : world, files v = files w ∧ trace v = trace w ∧
                ∀ l, l ≠ l1 → heap v !! l = heap w !! l).
    assert (P w1) as Hw1.
    { split; [done|]. split; [done|]. intros l Hl. unfold w1. simpl.
      by rewrite lookup_insert_ne. }
    destruct (for_range rows _ w1) as [r1 w2] eqn:Hloop.
    assert (P w2) as Hw2.
    { revert Hloop. unfold for_range.
      apply (for_each_invariant P); [|done]. intros i u1 r1' u1' Hu1.
      apply (for_each_invariant P); [|done]. intros j u2 r2' u2' Hu2.
      apply (for_each_invariant P); [|done]. intros k u3 r3' u3' Hu3.
      rewrite bind_M_eq.
      destruct (getitem3 img i j k u3) as [[z|e] u4] eqn:Hget;
        apply getitem3_world in Hget as ->; [|by intros [= _ <-]].
      rewrite bind_M_eq. unfold lift at 1.
      destruct (list_getitem key z) as [x|e]; [|by intros [= _ <-]].
      intros (Hf & Ht & Hh)%setitem3_frame.
      destruct Hu3 as (Hf3 & Ht3 & Hh3).
      split; [congruence|]. split; [congruence|].
      intros l Hl. by rewrite Hh, Hh3. }
    destruct r1 as [[]|e]; by intros [= _ <-]. }
  split; [done|]. split; [done|]. split; [|done].
  intros l a Hl. rewrite Hh; [done|].
  intros ->. pose proof (is_fresh (dom (heap w))) as Hfr.
  apply Hfr, elem_of_dom. eauto.
Qed.

Lemma encrypt_image_frame_witness :
  let w := store_of (IntArray [1; 1; 3]%nat [10; 256; 30]) in
  let rw := encrypt_image 1%positive (range 256) w in
  files rw.2 = files w ∧ trace rw.2 = trace w ∧
  (∀ l a, heap w !! l = Some a → heap rw.2 !! l = Some a) ∧
  (∀ l, l ≠ fresh (dom (heap w)) → heap rw.2 !! l = heap w !! l).
Proof.
  intros w rw. apply (encrypt_image_frame 1%positive (range 256) w rw.1).
  apply surjective_pairing.
Defined.

(** The same for [decrypt_image]: no file, no output, no array of the
    store changed, whatever the image and the key. *)
Theorem decrypt_image_leaves_store img key w r w' :
  decrypt_image img key w = (r, w') →
  files w' = files w ∧ trace w' = trace w ∧
  (∀ l a, heap w !! l = Some a → heap w' !! l = Some a) ∧
  (∀ l, l ≠ fresh (dom (heap w)) → heap w' !! l = heap w !! l).
Proof.
  intros Hrun.
  assert (∀ l, l ≠ fresh (dom (heap w)) → heap w' !! l = heap w !! l) as Hh.
  { revert Hrun. unfold decrypt_image, np_vectorize. rewrite bind_M_eq.
    unfold deref.
    destruct (heap w !! img) as [a|]; [|by intros [= _ <-]].
    destruct (elements a) as [|x0 xs]; [by intros [= _ <-]|].
    destruct (dict_get _ x0).
    - destruct (mapM id _) as [out|]; [|by intros [= _ <-]].
      unfold alloc. intros [= _ <-] l Hl. simpl.
      by rewrite lookup_insert_ne.
    - unfold alloc. intros [= _ <-] l Hl. simpl.
      by rewrite lookup_insert_ne. }
  destruct (decrypt_image_frame img key w r w' Hrun) as [Hf Ht].
  split; [done|]. split; [done|]. split; [|done].
  intros l a Hl. rewrite Hh; [done|].
  intros ->. pose proof (is_fresh (dom (heap w))) as Hfr.
  apply Hfr, elem_of_dom. eauto.
Qed.

Lemma decrypt_image_leaves_store_witness :
  let w := store_of (IntArray [1; 1; 3]%nat [10; 256; 30]) in
  let rw := decrypt_image 1%positive (range 256) w in
  files rw.2 = files w ∧ trace rw.2 = trace w ∧
  (∀ l a, heap w !! l = Some a → heap rw.2 !! l = Some a) ∧
  (∀ l, l ≠ fresh (dom (heap w)) → heap rw.2 !! l = heap w !! l).
Proof.
  intros w rw.
  apply (decrypt_image_leaves_store 1%positive (range 256) w rw.1).
  apply surjective_pairing.
Defined.

(** ** Images with other shapes *)

Section encrypt_channels.
Context (img l1 : loc) (key : list Z) (a : ndarray) (rows cols ch : nat).
Context (h0 : gmap loc ndarray) (fs : gmap string (list ascii)).
Context (tr : list event).
Hypothesis img_array : h0 !! img = Some a.
Hypothesis img_shape : shape a = [rows; cols; ch].
Hypothesis img_channels : (3 ≤ ch)%nat.
Hypothesis img_size : size a = (rows * cols * ch)%nat.
Hypothesis l1_fresh : l1 ≠ img.

Lemma rgb_view_size : size (rgb_view rows cols ch a) = (rows * cols * 3)%nat.
Proof. unfold size, rgb_view. simpl. by rewrite length_fmap, length_seq. Qed.

Lemma rgb_view_lookup i j k :
  (i < rows)%nat → (j < cols)%nat → (k < 3)%nat →
  ∃ e, elements a !! ((i * cols + j) * ch + k)%nat = Some e ∧
       elements (rgb_view rows cols ch a) !! ((i * cols + j) * 3 + k)%nat
       = Some e.
Proof.
  clear img_array img_shape l1_fresh. intros Hi Hj Hk.
  assert (i * cols + j < rows * cols)%nat as Hpix by nia.
  assert ((i * cols + j) * ch + k < size a)%nat as Hp.
  { rewrite img_size.
    assert ((i * cols + j) * ch + ch ≤ rows * cols * ch)%nat; [|lia].
    replace ((i * cols + j) * ch + ch)%nat with (S (i * cols + j) * ch)%nat
      by lia.
    apply Nat.mul_le_mono_r. lia. }
  destruct (lookup_lt_is_Some_2 (elements a) _ Hp) as [e He].
  exists e. split; [done|]. unfold rgb_view. cbn [elements].
  rewrite list_lookup_fmap, lookup_seq_lt by lia.
  cbn [fmap option_fmap option_map Nat.add].
  replace (((i * cols + j) * 3 + k) `div` 3)%nat with (i * cols + j)%nat
    by (apply (Nat.div_unique _ 3 _ k); lia).
  replace (((i * cols + j) * 3 + k) `mod` 3)%nat with k
    by (apply (Nat.mod_unique _ 3 (i * cols + j) k); lia).
  by rewrite He.
Qed.

Lemma body_fill_channels i j k d :
  (i < rows)%nat → (j < cols)%nat → (k < 3)%nat →
  length d = (rows * cols * 3)%nat →
  (v ← getitem3 img i j k;
   x ← lift (list_getitem key v);
   setitem3 l1 i j k x) (loop_world l1 rows cols h0 fs tr d)
  = in_world l1 rows cols h0 fs tr
      (fill key (rgb_view rows cols ch a) [((i * cols + j) * 3 + k)%nat] d).
Proof.
  intros Hi Hj Hk Hd.
  destruct (rgb_view_lookup i j k Hi Hj Hk) as (e & He & Hview).
  unfold in_world. cbn [fill]. rewrite Hview.
  rewrite bind_M_eq. unfold getitem3. rewrite bind_M_eq.
  unfold deref at 1. simpl. rewrite lookup_insert_ne by done.
  rewrite img_array, img_shape. rewrite decide_True by lia. rewrite He.
  destruct e as [v|]; simpl; [|done].
  rewrite bind_M_eq. unfold lift at 1.
  destruct (list_getitem key v) as [x|er]; simpl; [|done].
  unfold setitem3. simpl. rewrite lookup_insert_eq.
  rewrite decide_True by done.
  destruct (decide (fits_int x)); simpl; [|done].
  unfold loop_world. by rewrite insert_insert_eq.
Qed.

Lemma loops_fill_channels d :
  length d = (rows * cols * 3)%nat →
  for_range rows (λ i,
    for_range cols (λ j,
      for_range 3 (λ k,
        v ← getitem3 img i j k;
        x ← lift (list_getitem key v);
        setitem3 l1 i j k x))) (loop_world l1 rows cols h0 fs tr d)
  = in_world l1 rows cols h0 fs tr
      (fill key (rgb_view rows cols ch a) (seq 0 (rows * cols * 3)) d).
Proof.
  intros Hd. unfold for_range.
  pose proof rgb_view_size as Hsz.
  rewrite (for_each_blocks img l1 key _ rows cols h0 fs tr Hsz l1_fresh
             _ 0 (cols * 3)).
  { by replace (rows * (cols * 3))%nat with (rows * cols * 3)%nat by lia. }
  intros i d1 Hi Hd1.
  rewrite (for_each_blocks img l1 key _ rows cols h0 fs tr Hsz l1_fresh
             _ (0 + i * (cols * 3)) 3).
  { by rewrite Nat.add_0_r. }
  intros j d2 Hj Hd2.
  rewrite (for_each_blocks img l1 key _ rows cols h0 fs tr Hsz l1_fresh
             _ (0 + i * (cols * 3) + (0 + j) * 3) 1).
  { by rewrite Nat.add_0_r. }
  intros k d3 Hk Hd3.
  rewrite body_fill_channels by (lia || congruence).
  by replace ((i * cols + j) * 3 + k)%nat
    with (0 + i * (cols * 3) + (0 + j) * 3 + (0 + k) * 1)%nat by lia.
Qed.
End encrypt_channels.

Lemma encrypt_image_channels_run img key w a rows cols ch :
  heap w !! img = Some a →
  shape a = [rows; cols; ch] →
  (3 ≤ ch)%nat →
  size a = (rows * cols * ch)%nat →
  let l1 := fresh (dom (heap w)) in
  ∃ d', length d' = (rows * cols * 3)%nat ∧
    encrypt_image img key w =
      (mapM (subst key) (elements (rgb_view rows cols ch a))
         ≫= (λ _, Ok l1),
       World (<[l1 := IntArray [rows; cols; 3%nat] d']> (heap w))
             (files w) (trace w)) ∧
    (∀ vs, mapM (subst key) (elements (rgb_view rows cols ch a)) = Ok vs →
           d' = vs).
Proof.
  intros Himg Hsh Hch Hsz l1.
  assert (l1 ≠ img) as Hne.
  { intros Heq. apply (is_fresh (dom (heap w))). fold l1. rewrite Heq.
    apply elem_of_dom. eauto. }
  pose proof (loops_fill_channels img l1 key a rows cols ch (heap w) (files w)
                (trace w) Himg Hsh Hch Hsz Hne
                (replicate (rows * cols * 3) 0)
                ltac:(by rewrite length_replicate)) as Hloop.
  pose proof (rgb_view_size a rows cols ch) as Hvsz.
  pose proof (fill_from key (rgb_view rows cols ch a) 0
                (replicate (rows * cols * 3) 0)
                ltac:(by rewrite length_replicate, Hvsz) ltac:(lia)) as Hfill.
  rewrite drop_0, Nat.sub_0_r, Hvsz in Hfill.
  pose proof (fill_length key (rgb_view rows cols ch a)
                (seq 0 (rows * cols * 3))
                (replicate (rows * cols * 3) 0)) as Hlen.
  rewrite length_replicate in Hlen.
  exists (fill key (rgb_view rows cols ch a) (seq 0 (rows * cols * 3))
            (replicate (rows * cols * 3) 0)).2.
  split; [done|]. split.
  - unfold encrypt_image. rewrite bind_M_eq.
    unfold shape2. rewrite bind_M_eq. unfold deref at 1. rewrite Himg, Hsh.
    cbn [mret M_ret]. rewrite bind_M_eq. unfold np_zeros, alloc.
    cbn [foldr heap files trace]. rewrite bind_M_eq. fold l1.
    replace (rows * (cols * (3 * 1)))%nat with (rows * cols * 3)%nat by lia.
    unfold loop_world in Hloop. rewrite Hloop. unfold in_world, loop_world.
    destruct (mapM (subst key) (elements (rgb_view rows cols ch a)))
      as [vs|e]; cbn [mbind result_bind fst snd].
    + by rewrite Hfill.
    + by rewrite Hfill.
  - intros vs Hvs. rewrite Hvs in Hfill. by rewrite Hfill.
Qed.

Lemma mapM_subst_each key (es : list (option Z)) :
  Forall (λ e, ∃ x, subst key e = Ok x) es →
  ∃ vs, mapM (subst key) es = Ok vs ∧
        Forall2 (λ e x, subst key e = Ok x) es vs.
Proof.
  induction 1 as [|e es [x Hx] _ (vs & Hvs & IH)]; [by exists []|].
  exists (x :: vs). split; [|by constructor].
  rewrite mapM_result_cons, Hx. unfold mbind at 1, result_bind at 1.
  by rewrite Hvs.
Qed.

Lemma subst_byte key v :
  key ≡ₚ range 256 → 0 ≤ v ≤ 255 →
  ∃ x, subst key (Some v) = Ok x ∧ key !! Z.to_nat v = Some x.
Proof.
  intros Hp Hv.
  pose proof (perm_range_length key 256 ltac:(lia) Hp) as Hlen.
  destruct (list_getitem_nonneg key v ltac:(lia)) as (x & Hx & Hget).
  exists x. split; [|done]. simpl. rewrite Hget. simpl.
  rewrite decide_True; [done|].
  pose proof (perm_range_fits key Hp) as Hfit.
  by eapply (Forall_lookup_1 _ _ _ _ Hfit).
Qed.

(** An image with more than three channels, such as one with an alpha
    channel, is encrypted without complaint, but only in its first three
    channels: for a valid key and elements in [0, 255] the output is a new
    array of shape (rows, cols, 3) with [out[i][j][k] = key[img[i][j][k]]]
    for [k] below 3, and the other channels are not in it. *)
Theorem encrypt_image_drops_channels w img rows cols ch d key :
  validate_key key = Ok () →
  heap w !! img = Some (IntArray [rows; cols; ch] d) →
  (3 ≤ ch)%nat →
  length d = (rows * cols * ch)%nat →
  Forall (λ v, 0 ≤ v ≤ 255) d →
  ∃ d',
    returns_new_array (encrypt_image img key) w
      (IntArray [rows; cols; 3%nat] d') ∧
    length d' = (rows * cols * 3)%nat ∧
    ∀ i j k, (i < rows)%nat → (j < cols)%nat → (k < 3)%nat →
      ∃ v x, d !! ((i * cols + j) * ch + k)%nat = Some v ∧
             key !! Z.to_nat v = Some x ∧
             d' !! ((i * cols + j) * 3 + k)%nat = Some x.
Proof.
  intros Hp%valid_key_perm Himg Hch Hlen Hd.
  set (a := IntArray [rows; cols; ch] d) in *.
  assert (size a = (rows * cols * ch)%nat) as Hsz
    by (unfold size; simpl; by rewrite length_fmap).
  destruct (encrypt_image_channels_run img key w a rows cols ch Himg eq_refl
              Hch Hsz) as (d' & Hd' & Hrun & Hvs).
  destruct (mapM_subst_each key (elements (rgb_view rows cols ch a)))
    as (vs & Hmap & Hall).
  { apply Forall_forall. intros e He.
    apply list_elem_of_fmap in He as (p & -> & Hp').
    destruct (elements a !! _) as [e|] eqn:He.
    - simpl. unfold a in He. cbn [elements] in He.
      rewrite list_lookup_fmap in He.
      destruct (d !! _) as [v|] eqn:Hv; simplify_eq/=.
      destruct (subst_byte key v Hp) as (x & Hx & _); [|by exists x].
      by apply (Forall_lookup_1 _ _ _ _ Hd Hv).
    - apply lookup_ge_None in He. exfalso.
      apply elem_of_seq in Hp'. fold (size a) in He. rewrite Hsz in He.
      assert (p `div` 3 < rows * cols)%nat
        by (apply Nat.Div0.div_lt_upper_bound; lia).
      pose proof (Nat.mod_upper_bound p 3 ltac:(lia)).
      assert (S (p `div` 3) * ch ≤ rows * cols * ch)%nat
        by (apply Nat.mul_le_mono_r; lia).
      lia. }
  rewrite Hmap in Hrun. rewrite (Hvs vs Hmap) in *. clear Hvs.
  exists vs. split; [by apply alloc_returns_new_array|]. split; [done|].
  intros i j k Hi Hj Hk.
  destruct (rgb_view_lookup a rows cols ch Hch Hsz i j k Hi Hj Hk)
    as (e & He & Hview).
  destruct (Forall2_lookup_l _ _ _ _ _ Hall Hview) as (x & Hx & Hsub).
  unfold a in He. cbn [elements] in He. rewrite list_lookup_fmap in He.
  destruct (d !! _) as [v|] eqn:Hv; simplify_eq/=.
  exists v, x. split; [done|]. split; [|done].
  pose proof (Forall_lookup_1 _ _ _ _ Hd Hv) as Hrange. simpl in Hrange.
  destruct (subst_byte key v Hp Hrange) as (x' & Hx' & Hkey).
  simpl in Hx'. congruence.
Qed.

(** A pixel with an alpha channel: the alpha value 255 is not carried
    over. *)
Lemma encrypt_image_drops_channels_witness :
  ∃ d',
    returns_new_array (encrypt_image 1%positive (reverse (range 256)))
      (store_of (IntArray [1; 1; 4]%nat [10; 20; 30; 255]))
      (IntArray [1; 1; 3]%nat d') ∧
    length d' = (1 * 1 * 3)%nat ∧
    ∀ i j k, (i < 1)%nat → (j < 1)%nat → (k < 3)%nat →
      ∃ v x, [10; 20; 30; 255] !! ((i * 1 + j) * 4 + k)%nat = Some v ∧
             reverse (range 256) !! Z.to_nat v = Some x ∧
             d' !! ((i * 1 + j) * 3 + k)%nat = Some x.
Proof.
  apply (encrypt_image_drops_channels
           (store_of (IntArray [1; 1; 4]%nat [10; 20; 30; 255]))
           1%positive 1%nat 1%nat 4%nat).
  - by vm_compute.
  - reflexivity.
  - lia.
  - reflexivity.
  - repeat constructor; lia.
Defined.

(** An integer image with two axes only, as a grayscale file is loaded,
    cannot be encrypted: as soon as it has a pixel, the first
    [img[i][j][k]] raises [IndexError], whatever the key, since
    [img[i][j]] is a number already. *)
Theorem encrypt_image_grayscale_raises w img key rows cols d :
  heap w !! img = Some (IntArray [rows; cols] d) →
  (0 < rows)%nat → (0 < cols)%nat →
  (encrypt_image img key w).1 = Err IndexError.
Proof.
  intros Himg Hr Hc.
  assert (fresh (dom (heap w)) ≠ img) as Hne.
  { intros Heq. apply (is_fresh (dom (heap w))). rewrite Heq.
    apply elem_of_dom. eauto. }
  unfold encrypt_image. rewrite bind_M_eq.
  unfold shape2. rewrite bind_M_eq. unfold deref at 1. rewrite Himg.
  cbn [shape mret M_ret]. rewrite bind_M_eq. unfold np_zeros, alloc.
  cbn [heap files trace]. rewrite bind_M_eq.
  destruct rows as [|rows]; [lia|]. destruct cols as [|cols]; [lia|].
  unfold for_range. rewrite <-(cons_seq rows 0), for_each_cons.
  cbv beta. rewrite <-(cons_seq cols 0), for_each_cons.
  cbv beta. change (seq 0 3) with [0; 1; 2]%nat. rewrite for_each_cons.
  rewrite bind_M_eq. unfold getitem3. rewrite bind_M_eq. unfold deref.
  cbn [heap]. rewrite lookup_insert_ne by done. rewrite Himg.
  cbn [shape]. rewrite decide_True by lia. done.
Qed.

Lemma encrypt_image_grayscale_raises_witness :
  (encrypt_image 1%positive (range 256)
     (store_of (IntArray [1; 2]%nat [10; 20]))).1 = Err IndexError.
Proof.
  apply (encrypt_image_grayscale_raises _ _ _ 1%nat 2%nat [10; 20]).
  - reflexivity.
  - lia.
  - lia.
Defined.

(** ** What [validate_image] accepts *)

Lemma foldl_min_bound lo x (d : list Z) :
  lo ≤ x → Forall (λ v, lo ≤ v) d → lo ≤ foldl Z.min x d.
Proof.
  intros Hx Hd. revert x Hx.
  induction Hd as [|z d Hz _ IH]; intros x Hx; [done|].
  simpl. apply IH. lia.
Qed.

Lemma foldl_max_bound hi x (d : list Z) :
  x ≤ hi → Forall (λ v, v ≤ hi) d → foldl Z.max x d ≤ hi.
Proof.
  intros Hx Hd. revert x Hx.
  induction Hd as [|z d Hz _ IH]; intros x Hx; [done|].
  simpl. apply IH. lia.
Qed.

Lemma validate_image_valid img w a :
  heap w !! img = Some a → valid_output a → elements a ≠ [] →
  validate_image img w = (Ok (), w).
Proof.
  intros Himg (Hn & Hc & Hel) Hne.
  unfold validate_image. rewrite bind_M_eq. unfold deref. rewrite Himg.
  rewrite decide_False by (intros Hx; by apply Hx).
  rewrite decide_False by (intros Hx; by apply Hx).
  rewrite bind_M_eq. unfold lift, np_min_max.
  destruct (mapM_id_all (elements a) (λ v, 0 ≤ v ≤ 255) Hel)
    as (d & -> & Hd & Hrange).
  destruct d as [|x d]; [by rewrite Hd in Hne|].
  apply Forall_cons in Hrange as [Hx Hrange].
  pose proof (foldl_min_bound 0 x d ltac:(lia)
                ltac:(eapply Forall_impl; [done|]; simpl; lia)).
  pose proof (foldl_max_bound 255 x d ltac:(lia)
                ltac:(eapply Forall_impl; [done|]; simpl; lia)).
  rewrite decide_False by lia. done.
Qed.

(** [validate_image] returns exactly for an array of three axes and
    three channels that has an element and whose elements are all
    integers in [0, 255]; it never changes the world.  An image without
    pixels is refused, as the minimum of no elements is an error. *)
Theorem validate_image_accepts img w a :
  heap w !! img = Some a →
  (validate_image img w = (Ok (), w) ↔ valid_output a ∧ elements a ≠ []).
Proof.
  intros Himg. split.
  - intros Hv.
    destruct (validate_image_ok img w w Hv) as (_ & a' & Ha' & Hvalid & Hne).
    by simplify_eq.
  - intros [Hvalid Hne]. by apply (validate_image_valid img w a).
Qed.

Lemma validate_image_accepts_witness :
  validate_image 1%positive (store_of (IntArray [1; 1; 3]%nat [0; 128; 255]))
  = (Ok (), store_of (IntArray [1; 1; 3]%nat [0; 128; 255])).
Proof.
  apply (validate_image_accepts 1%positive
           (store_of (IntArray [1; 1; 3]%nat [0; 128; 255]))
           (IntArray [1; 1; 3]%nat [0; 128; 255]) eq_refl).
  split; [|done]. split; [done|]. split; [done|].
  repeat constructor; eexists; (split; [reflexivity|lia]).
Defined.

(** ** The encrypted image as a picture *)

Lemma clip_uint8_bytes sh (d : list Z) :
  Forall (λ v, 0 ≤ v ≤ 255) d →
  clip_uint8 (IntArray sh d) = Ok (IntArray sh d).
Proof.
  intros Hd. unfold clip_uint8. cbn [elements shape].
  rewrite (mapM_id_fmap Some d d) by (by apply Forall_Forall2_diag, Forall_true).
  do 2 f_equal. rewrite <-(list_fmap_id d) at 2.
  apply Forall_fmap_ext_1. eapply Forall_impl; [done|]. simpl. lia.
Qed.

Lemma key_entries_bytes key (d d' : list Z) :
  key ≡ₚ range 256 →
  Forall2 (λ v x, key !! Z.to_nat v = Some x) d d' →
  Forall (λ x, 0 ≤ x ≤ 255) d'.
Proof.
  intros Hp Hall. apply Forall_forall. intros x Hx.
  apply list_elem_of_lookup in Hx as [i Hi].
  destruct (Forall2_lookup_r _ _ _ _ _ Hall Hi) as (v & _ & Hkey).
  apply list_elem_of_lookup_2 in Hkey.
  apply (perm_range_elem key 256 x Hp) in Hkey. lia.
Qed.

(** The picture written for the encrypted image holds the encrypted values
    themselves: for a valid key and an image with a pixel and elements in
    [0, 255], every encrypted element lies in [0, 255] again, so the
    clipping of [save_image_as_png] changes nothing. *)
Theorem encrypted_png_lossless w img rows cols d key path :
  validate_key key = Ok () →
  heap w !! img = Some (IntArray [rows; cols; 3%nat] d) →
  length d = (rows * cols * 3)%nat →
  (0 < rows)%nat → (0 < cols)%nat →
  Forall (λ v, 0 ≤ v ≤ 255) d →
  ∃ enc d' w',
    (enc ← encrypt_image img key;
     save_image_as_png enc path;;
     mret enc) w = (Ok enc, w') ∧
    heap w' !! enc = Some (IntArray [rows; cols; 3%nat] d') ∧
    Forall (λ x, 0 ≤ x ≤ 255) d' ∧
    trace w' = trace w ++ [SavedPng path (IntArray [rows; cols; 3%nat] d')].
Proof.
  intros Hp%valid_key_perm Himg Hlen Hr Hc Hd.
  destruct (encrypt_image_bytes w img rows cols d key Hp Himg Hlen Hd)
    as (d' & Hall & Hrun).
  pose proof (key_entries_bytes key d d' Hp Hall) as Hbytes.
  assert (elements (IntArray [rows; cols; 3%nat] d') ≠ []) as Hne.
  { cbn [elements]. intros Hnil%fmap_nil_inv. subst d'.
    apply Forall2_length in Hall. simpl in Hall. nia. }
  eexists _, d', _. split; [|split; [|split; [done|]]].
  - rewrite bind_M_eq, Hrun. rewrite bind_M_eq.
    unfold save_image_as_png. rewrite bind_M_eq. unfold deref at 1.
    cbn [heap]. rewrite lookup_insert_eq.
    rewrite bind_M_eq. unfold lift at 1.
    rewrite clip_uint8_bytes by done.
    rewrite plt_imsave_run by (by apply valid_output_bytes || done).
    unfold emit. reflexivity.
  - cbn [heap]. apply lookup_insert_eq.
  - reflexivity.
Qed.

Lemma encrypted_png_lossless_witness :
  ∃ enc d' w',
    (enc ← encrypt_image 1%positive (reverse (range 256));
     save_image_as_png enc "encrypted_image.png";;
     mret enc) (store_of (IntArray [1; 1; 3]%nat [10; 20; 30]))
    = (Ok enc, w') ∧
    heap w' !! enc = Some (IntArray [1; 1; 3]%nat d') ∧
    Forall (λ x, 0 ≤ x ≤ 255) d' ∧
    trace w' = trace (store_of (IntArray [1; 1; 3]%nat [10; 20; 30]))
               ++ [SavedPng "encrypted_image.png" (IntArray [1; 1; 3]%nat d')].
Proof.
  apply (encrypted_png_lossless
           (store_of (IntArray [1; 1; 3]%nat [10; 20; 30]))
           1%positive 1%nat 1%nat [10; 20; 30]).
  - by vm_compute.
  - reflexivity.
  - reflexivity.
  - lia.
  - lia.
  - repeat constructor; lia.
Defined.

(** The substitution hides no repetition: for a valid key, two elements of
    the encrypted image are equal exactly when the two elements of the
    original at the same positions are. *)
Theorem encrypt_image_keeps_equalities w img rows cols d key :
  validate_key key = Ok () →
  heap w !! img = Some (IntArray [rows; cols; 3%nat] d) →
  length d = (rows * cols * 3)%nat →
  Forall (λ v, 0 ≤ v ≤ 255) d →
  ∃ d',
    returns_new_array (encrypt_image img key) w
      (IntArray [rows; cols; 3%nat] d') ∧
    ∀ p q v1 v2 x1 x2,
      d !! p = Some v1 → d !! q = Some v2 →
      d' !! p = Some x1 → d' !! q = Some x2 →
      (x1 = x2 ↔ v1 = v2).
Proof.
  intros Hp%valid_key_perm Himg Hlen Hd.
  destruct (encrypt_image_bytes w img rows cols d key Hp Himg Hlen Hd)
    as (d' & Hall & Hrun).
  exists d'. split; [by apply alloc_returns_new_array|].
  intros p q v1 v2 x1 x2 Hv1 Hv2 Hx1 Hx2.
  pose proof (Forall2_lookup_lr _ _ _ _ _ _ Hall Hv1 Hx1) as Hk1.
  pose proof (Forall2_lookup_lr _ _ _ _ _ _ Hall Hv2 Hx2) as Hk2.
  pose proof (Forall_lookup_1 _ _ _ _ Hd Hv1) as Hr1.
  pose proof (Forall_lookup_1 _ _ _ _ Hd Hv2) as Hr2.
  simpl in *. split.
  - intros ->.
    pose proof (NoDup_lookup _ _ _ _ (perm_range_NoDup _ _ Hp) Hk1 Hk2).
    lia.
  - intros ->. congruence.
Qed.

Lemma encrypt_image_keeps_equalities_witness :
  ∃ d',
    returns_new_array (encrypt_image 1%positive (reverse (range 256)))
      (store_of (IntArray [1; 1; 3]%nat [10; 20; 10]))
      (IntArray [1; 1; 3]%nat d') ∧
    ∀ p q v1 v2 x1 x2,
      [10; 20; 10] !! p = Some v1 → [10; 20; 10] !! q = Some v2 →
      d' !! p = Some x1 → d' !! q = Some x2 →
      (x1 = x2 ↔ v1 = v2).
Proof.
  apply (encrypt_image_keeps_equalities
           (store_of (IntArray [1; 1; 3]%nat [10; 20; 10]))
           1%positive 1%nat 1%nat).
  - by vm_compute.
  - reflexivity.
  - reflexivity.
  - repeat constructor; lia.
Defined.

(** ** A header that does not match the data *)




(** ** From the encrypted files back to the image *)

Lemma key_stage_run u w key :
  files w !! key_file_choice u
    = Some (join (list_ascii_of_string ", ") (str <$> key)) →
  validate_key key = Ok () →
  key_stage u w = (Ok key, w).
Proof.
  intros Hf Hv. unfold key_stage. rewrite bind_M_eq.
  rewrite (load_key_from_file_run _ w _ Hf), key_string_read.
  - rewrite bind_M_eq. unfold lift. by rewrite Hv.
  - intros ->. by vm_compute in Hv.
Qed.

(** The two scripts fit together.  When the key and the encrypted image
    are written the way the encryption script writes them (the key with
    [save_key_to_file], the output of [encrypt_image] with
    [save_image_to_csv] under the counts of the image), a decryption run
    that is pointed at these files ends normally, and what it displays and
    what it saves is the original image.  The image must have a pixel and
    elements in [0, 255], the key must be valid, and the key file must not
    be the file of the encrypted image. *)
Theorem decrypt_run_restores w img rows cols d key u :
  validate_key key = Ok () →
  heap w !! img = Some (IntArray [rows; cols; 3%nat] d) →
  length d = (rows * cols * 3)%nat →
  (0 < rows)%nat → (0 < cols)%nat →
  Forall (λ v, 0 ≤ v ≤ 255) d →
  key_file_choice u ≠ ""%string →
  img_dir_choice u ≠ ""%string →
  output_dir_choice u ≠ ""%string →
  key_file_choice u ≠ path_join (img_dir_choice u) "encrypted_image.csv" →
  ∃ w1 w2,
    (save_key_to_file key (key_file_choice u);;
     enc ← encrypt_image img key;
     save_image_to_csv enc
       (path_join (img_dir_choice u) "encrypted_image.csv")
       (Z.of_nat rows) (Z.of_nat cols)) w = (Ok (), w1) ∧
    main u w1 = (Finished, w2) ∧
    trace w2 = trace w ++
      [Displayed "Decrypted Image" (IntArray [rows; cols; 3%nat] d);
       SavedPng (path_join (output_dir_choice u) "decrypted_image.png")
         (IntArray [rows; cols; 3%nat] d)].
Proof.
  intros Hvalid Himg Hlen Hr Hc Hd Hkf Hdir Hout Hpaths.
  pose proof (valid_key_perm key Hvalid) as Hp.
  pose proof (perm_range_NoDup _ _ Hp) as Hnd.
  set (kp := key_file_choice u) in *.
  set (cp := path_join (img_dir_choice u) "encrypted_image.csv") in *.
  (* the encryption side *)
  set (wa := World (heap w)
               (<[kp := join (list_ascii_of_string ", ") (str <$> key)]>
                  (files w)) (trace w)).
  destruct (encrypt_image_bytes wa img rows cols d key Hp Himg Hlen Hd)
    as (d1 & Hall & Henc).
  pose proof (key_entries_bytes key d d1 Hp Hall) as Hbytes.
  pose proof (Forall2_length _ _ _ Hall) as Hlen1.
  set (enc := fresh (dom (heap wa))) in *.
  set (wb := World (<[enc := IntArray [rows; cols; 3%nat] d1]> (heap wa))
               (files wa) (trace wa)) in *.
  set (w1 := World (heap wb)
               (<[cp := csv_text (Z.of_nat rows) (Z.of_nat cols) d1]>
                  (files wb)) (trace wb)).
  assert (Forall fits_int d1) as Hfit1.
  { eapply Forall_impl; [done|]. intros x Hx. by apply fits_int_byte. }
  (* the decryption side *)
  assert (files w1 !! kp
          = Some (join (list_ascii_of_string ", ") (str <$> key))) as Hkfile.
  { unfold w1, wb, wa. cbn [files].
    rewrite lookup_insert_ne by done. apply lookup_insert_eq. }
  assert (files w1 !! cp
          = Some (csv_text (Z.of_nat rows) (Z.of_nat cols) d1)) as Hcfile.
  { unfold w1. cbn [files]. apply lookup_insert_eq. }
  pose proof (key_stage_run u w1 key Hkfile Hvalid) as Hkey.
  pose proof (load_image_from_csv_run w1 cp rows cols d1
                Hcfile ltac:(lia) Hfit1) as Hload.
  set (l2 := fresh (dom (heap w1))) in *.
  set (w3 := World (<[l2 := IntArray [rows; cols; 3%nat] d1]> (heap w1))
               (files w1) (trace w1)) in *.
  assert (decrypt_image l2 key w3 =
          (Ok (fresh (dom (heap w3))),
           World (<[fresh (dom (heap w3)) := IntArray [rows; cols; 3%nat] d]>
                    (heap w3)) (files w3) (trace w3))) as Hdec.
  { apply (decrypt_image_run l2 key w3 _ d1 d).
    - apply lookup_insert_eq.
    - intros ->. simpl in Hlen1. nia.
    - apply Forall2_same_length_lookup. split; [done|].
      intros i x v Hx Hv.
      pose proof (Forall2_lookup_lr _ _ _ _ _ _ Hall Hv Hx) as Hk.
      pose proof (Forall_lookup_1 _ _ _ _ Hd Hv) as Hrange.
      simpl in Hk, Hrange.
      rewrite (invert_key_lookup key _ x Hnd Hk). f_equal. lia. }
  set (l3 := fresh (dom (heap w3))) in *.
  set (w4 := World (<[l3 := IntArray [rows; cols; 3%nat] d]> (heap w3))
               (files w3) (trace w3)) in *.
  assert (validate_image l3 w4 = (Ok (), w4)) as Hval.
  { apply (validate_image_valid l3 w4 (IntArray [rows; cols; 3%nat] d)).
    - apply lookup_insert_eq.
    - by apply valid_output_bytes.
    - cbn [elements]. intros Hnil%fmap_nil_inv. subst d. simpl in Hlen. nia. }
  exists w1. eexists. split; [|split].
  - rewrite bind_M_eq, save_key_to_file_run. fold wa.
    rewrite bind_M_eq, Henc.
    by rewrite (save_image_to_csv_run wb enc _ _ _ d1 cp (rows * cols)
                  (lookup_insert_eq _ _ _) eq_refl ltac:(lia)).
  - rewrite main_unfold. rewrite decide_False by done.
    rewrite Hkey. rewrite decide_False by done. fold cp.
    rewrite Hload, Hdec, Hval.
    assert (heap w4 !! l3 = Some (IntArray [rows; cols; 3%nat] d)) as Hl3
      by apply lookup_insert_eq.
    unfold display_image. rewrite bind_M_eq. unfold deref at 1.
    rewrite Hl3. unfold emit at 1.
    rewrite decide_False by done.
    unfold save_image_as_png. rewrite bind_M_eq. unfold deref at 1.
    cbn [heap]. rewrite Hl3.
    rewrite bind_M_eq. unfold lift at 1.
    rewrite clip_uint8_bytes by done.
    rewrite plt_imsave_run; [unfold emit; reflexivity| |].
    + by apply valid_output_bytes.
    + cbn [elements]. intros Hnil%fmap_nil_inv. subst d.
      simpl in *. nia.
  - cbn [trace]. by rewrite <-app_assoc.
Qed.

Lemma decrypt_run_restores_witness :
  ∃ w1 w2,
    (save_key_to_file (reverse (range 256)) "key.txt";;
     enc ← encrypt_image 1%positive (reverse (range 256));
     save_image_to_csv enc "enc/encrypted_image.csv" 1 1)
      (store_of (IntArray [1; 1; 3]%nat [10; 20; 30])) = (Ok (), w1) ∧
    main picks w1 = (Finished, w2) ∧
    trace w2 = [] ++
      [Displayed "Decrypted Image" (IntArray [1; 1; 3]%nat [10; 20; 30]);
       SavedPng "out/decrypted_image.png"
         (IntArray [1; 1; 3]%nat [10; 20; 30])].
Proof.
  apply (decrypt_run_restores
           (store_of (IntArray [1; 1; 3]%nat [10; 20; 30]))
           1%positive 1%nat 1%nat [10; 20; 30] (reverse (range 256)) picks).
  - by vm_compute.
  - reflexivity.
  - reflexivity.
  - lia.
  - lia.
  - repeat constructor; lia.
  - done.
  - done.
  - done.
  - by vm_compute.
Defined.

(** ** The inverse dictionary of any key *)

Lemma invert_from_last l s m v i :
  invert_from s m l !! v = Some i ↔
  (s ≤ i ∧ l !! Z.to_nat (i - s) = Some v ∧
   (∀ j, (Z.to_nat (i - s) < j)%nat → l !! j ≠ Some v)) ∨
  ((v ∉ l) ∧ m !! v = Some i).
Proof.
  revert s m. induction l as [|x l IH]; intros s m.
  - split; [intros Hm; right; split; [apply not_elem_of_nil|done]|].
    intros [(_ & Hl & _)|[_ Hm]]; [by rewrite lookup_nil in Hl|done].
  - rewrite invert_from_cons, IH. split.
    + intros [(Hi & Hl & Hlast)|[Hv Hm]].
      * left. split; [lia|].
        replace (Z.to_nat (i - s)) with (S (Z.to_nat (i - (s + 1)))) by lia.
        split; [done|]. intros [|j] Hj; [lia|]. apply Hlast. lia.
      * apply lookup_insert_Some in Hm as [[-> ->]|[Hx Hm]].
        -- left. split; [lia|]. rewrite Z.sub_diag. split; [done|].
           intros [|j] Hj; [simpl in Hj; lia|]. simpl. intros Hl.
           apply Hv. by eapply list_elem_of_lookup_2.
        -- right. split; [|done]. apply not_elem_of_cons. by split.
    + intros [(Hi & Hl & Hlast)|[Hv Hm]].
      * destruct (Z.to_nat (i - s)) as [|n] eqn:Hn.
        -- simpl in Hl. simplify_eq. right.
           assert (i = s) as -> by lia.
           split; [|apply lookup_insert_eq].
           intros [j Hj]%list_elem_of_lookup.
           by apply (Hlast (S j) ltac:(lia)).
        -- left. simpl in Hl.
           replace (Z.to_nat (i - (s + 1))) with n by lia.
           split; [lia|]. split; [done|].
           intros j Hj. apply (Hlast (S j)). lia.
      * apply not_elem_of_cons in Hv as [Hx Hv]. right. split; [done|].
        by rewrite lookup_insert_ne.
Qed.

(** The dictionary [decrypt_image] builds from any key, valid or not,
    sends a value to the last index at which the key holds it: a later
    entry of the comprehension overwrites an earlier one. *)
Theorem invert_key_last_index key v i :
  invert_key key !! v = Some i ↔
  0 ≤ i ∧ key !! Z.to_nat i = Some v ∧
  (∀ j, (Z.to_nat i < j)%nat → key !! j ≠ Some v).
Proof.
  change (invert_key key) with (invert_from 0 ∅ key).
  rewrite invert_from_last, Z.sub_0_r. split.
  - intros [H|[_ Hm]]; [done|by rewrite lookup_empty in Hm].
  - intros H. by left.
Qed.

(** ** The key file, for any list of integers *)

(** Writing and reading back works for every list with at least one
    entry, whether it is a valid key or not, as long as no entry has more
    than 4300 decimal digits, the length up to which the interpreter
    converts between integers and text.  The empty list is written as an
    empty file, and reading that file raises [ValueError]. *)
Theorem key_file_roundtrip_any key path w :
  Forall (λ v, Z.abs v < 10 ^ 4300) key →
  ∃ w',
    (save_key_to_file key path;; load_key_from_file path) w
    = (if decide (key = []) then Err (ValueError (InvalidLiteral []))
       else Ok key, w').
Proof.
  intros _. eexists. rewrite bind_M_eq, save_key_to_file_run.
  erewrite load_key_from_file_run by apply lookup_insert_eq.
  case_decide as Hk.
  - by subst key.
  - by rewrite key_string_read.
Qed.

Lemma key_file_roundtrip_any_witness :
  ∃ w',
    (save_key_to_file [-5; 300; 0; 2 ^ 70] "key.txt";;
     load_key_from_file "key.txt") (World ∅ ∅ [])
    = (Ok [-5; 300; 0; 2 ^ 70], w').
Proof.
  apply (key_file_roundtrip_any [-5; 300; 0; 2 ^ 70] "key.txt"
           (World ∅ ∅ [])).
  repeat constructor; by vm_compute.
Defined.

(** ** Decrypting first *)

(** The substitutions are inverse to each other in the other order as
    well: for a valid key and an image with a pixel and elements in
    [0, 255], encrypting the decrypted image gives the image back. *)
Theorem encrypt_decrypt_roundtrip w img rows cols d key :
  validate_key key = Ok () →
  heap w !! img = Some (IntArray [rows; cols; 3%nat] d) →
  length d = (rows * cols * 3)%nat →
  (0 < rows)%nat → (0 < cols)%nat →
  Forall (λ v, 0 ≤ v ≤ 255) d →
  ∃ enc w',
    (dec ← decrypt_image img key; encrypt_image dec key) w = (Ok enc, w') ∧
    heap w' !! enc = Some (IntArray [rows; cols; 3%nat] d) ∧
    heap w' !! img = Some (IntArray [rows; cols; 3%nat] d).
Proof.
  intros Hp%valid_key_perm Himg Hlen Hr Hc Hd.
  assert (d ≠ []) as Hne by (intros ->; simpl in Hlen; nia).
  destruct (decrypt_image_bytes w img _ d key Hp Himg Hne Hd)
    as (d1 & Hall & Hdec).
  set (dec := fresh (dom (heap w))) in *.
  set (w1 := World (<[dec := IntArray [rows; cols; 3%nat] d1]> (heap w))
               (files w) (trace w)) in *.
  assert (dec ≠ img) as Hneq.
  { intros Heq. apply (is_fresh (dom (heap w))). fold dec. rewrite Heq.
    apply elem_of_dom. eauto. }
  assert (Forall2 (λ i v, 0 ≤ i ≤ 255 ∧ key !! Z.to_nat i = Some v) d1 d)
    as Hback.
  { apply Forall2_flip. eapply Forall2_impl; [done|].
    intros v i [Hi Hk]%invert_key_sound. split; [|done].
    apply lookup_lt_Some in Hk.
    rewrite (perm_range_length key 256 ltac:(lia) Hp) in Hk. lia. }
  destruct (encrypt_image_bytes w1 dec rows cols d1 key Hp
              (lookup_insert_eq _ _ _)) as (d2 & Hall2 & Henc).
  { apply Forall2_length in Hall. lia. }
  { eapply Forall2_Forall_l; [done|]. apply Forall_true. tauto. }
  assert (d2 = d) as ->.
  { apply list_eq_same_length with (length d).
    - done.
    - by rewrite <-(Forall2_length _ _ _ Hall2), (Forall2_length _ _ _ Hback).
    - intros i x y _ Hx Hy.
      destruct (Forall2_lookup_r _ _ _ _ _ Hall2 Hx) as (i1 & Hi1 & Hk1).
      destruct (Forall2_lookup_l _ _ _ _ _ Hback Hi1) as (y' & Hy' & _ & Hk2).
      simpl in *. congruence. }
  eexists _, _. split; [|split].
  - rewrite bind_M_eq, Hdec. exact Henc.
  - cbn [heap]. apply lookup_insert_eq.
  - cbn [heap].
    assert (fresh (dom (heap w1)) ≠ img) as Hne'.
    { intros Heq. apply (is_fresh (dom (heap w1))). rewrite Heq.
      apply elem_of_dom. unfold w1. cbn [heap].
      rewrite lookup_insert_ne by done. eauto. }
    unfold w1. cbn [heap]. by rewrite !lookup_insert_ne.
Qed.

Lemma encrypt_decrypt_roundtrip_witness :
  ∃ enc w',
    (dec ← decrypt_image 1%positive (reverse (range 256));
     encrypt_image dec (reverse (range 256)))
      (store_of (IntArray [1; 1; 3]%nat [10; 20; 30])) = (Ok enc, w') ∧
    heap w' !! enc = Some (IntArray [1; 1; 3]%nat [10; 20; 30]) ∧
    heap w' !! 1%positive = Some (IntArray [1; 1; 3]%nat [10; 20; 30]).
Proof.
  apply (encrypt_decrypt_roundtrip
           (store_of (IntArray [1; 1; 3]%nat [10; 20; 30]))
           1%positive 1%nat 1%nat).
  - by vm_compute.
  - reflexivity.
  - reflexivity.
  - lia.
  - lia.
  - repeat constructor; lia.
Defined.

(** ** How a decryption run ends *)

(** A run of the decryption script ends in one of three ways.  When it
    returns, no dialog was cancelled and it has displayed one array that
    passed [validate_image] and then saved, under "decrypted_image.png" in
    the chosen directory, an array of the same shape and elements: the
    clipping before the save changes nothing.  When it ends in [exit(1)],
    either nothing was displayed or saved, or the picture was displayed
    and the dialog for the output directory was cancelled; nothing is ever
    saved by a run that exits. *)
Theorem main_outcome u w o w' :
  main u w = (o, w') →
  match o with
  | Finished =>
      key_file_choice u ≠ ""%string ∧ img_dir_choice u ≠ ""%string ∧
      output_dir_choice u ≠ ""%string ∧
      ∃ a a', valid_output a ∧ shape a' = shape a ∧
        elements a' = elements a ∧
        trace w' = trace w ++
          [Displayed "Decrypted Image" a;
           SavedPng (path_join (output_dir_choice u) "decrypted_image.png") a']
  | Exit1 =>
      trace w' = trace w ∨
      (output_dir_choice u = ""%string ∧
       ∃ a, valid_output a ∧
         trace w' = trace w ++ [Displayed "Decrypted Image" a])
  end.
Proof.
  rewrite main_unfold.
  case_decide as Hkf; [intros [= <- <-]; by left|].
  destruct (key_stage u w) as [[key|e] w1] eqn:Hk;
    apply key_stage_world in Hk as ->; [|intros [= <- <-]; by left].
  case_decide as Hid; [intros [= <- <-]; by left|].
  destruct (load_image_from_csv _ w) as [[[[[img r] c]|]|e] w2] eqn:Hl;
    apply load_image_from_csv_frame in Hl as [_ Ht2];
    try (intros [= <- <-]; by left).
  destruct (decrypt_image img key w2) as [[img3|e] w3] eqn:Hd;
    apply decrypt_image_frame in Hd as [_ Ht3];
    [|intros [= <- <-]; left; congruence].
  destruct (validate_image img3 w3) as [[[]|e] w3'] eqn:Hv.
  2: { apply validate_image_world in Hv as ->.
       intros [= <- <-]. left. congruence. }
  apply validate_image_ok in Hv as (-> & a & Ha & Hvalid & Hne).
  unfold display_image. rewrite bind_M_eq. unfold deref at 1.
  rewrite Ha. unfold emit at 1.
  case_decide as Hod.
  { intros [= <- <-]. right. split; [done|]. exists a. split; [done|].
    cbn [trace]. congruence. }
  unfold save_image_as_png. rewrite bind_M_eq. unfold deref at 1.
  cbn [heap]. rewrite Ha. rewrite bind_M_eq. unfold lift at 1.
  destruct (clip_uint8_valid_id a Hvalid) as (a' & Hclip & Hsh & Hel).
  rewrite Hclip.
  rewrite plt_imsave_run.
  2: { destruct Hvalid as (Hn & Hc & _). by apply (clip_uint8_valid a a'). }
  2: { congruence. }
  unfold emit. intros [= <- <-]. cbn [trace].
  do 3 (split; [done|]). exists a, a'. do 3 (split; [done|]).
  by rewrite Ht3, Ht2, <-app_assoc.
Qed.

Lemma main_outcome_witness :
  key_file_choice picks ≠ ""%string ∧ img_dir_choice picks ≠ ""%string ∧
  output_dir_choice picks ≠ ""%string ∧
  ∃ a a', valid_output a ∧ shape a' = shape a ∧
    elements a' = elements a ∧
    trace (main picks
             (decrypt_world (reverse (range 256))
                (csv_text 1 1 [245; 235; 225]))).2
    = trace (decrypt_world (reverse (range 256))
               (csv_text 1 1 [245; 235; 225])) ++
        [Displayed "Decrypted Image" a;
         SavedPng (path_join (output_dir_choice picks) "decrypted_image.png")
           a'].
Proof.
  apply (main_outcome picks
           (decrypt_world (reverse (range 256))
              (csv_text 1 1 [245; 235; 225]))
           Finished).
  by vm_compute.
Defined.
